(** * rain: the webseed piece-result handler, the peer handshake and the
      session's add-torrent paths

    A shallow embedding of three source files of the rain BitTorrent client:

    - [Coordinator]: [handleWebseedPieceResult] of the per-torrent loop;
    - [Rain]: the handshake code of [rain.go] ([sendHandShake],
      [readHandShake], [servePeerConn], [connectToPeer]) over a model of a
      [net.Conn] with deadlines;
    - [SessionAdd]: [add], [addTorrentStopped], [addMagnet], [AddTorrent] and
      [insertTorrent] of [session_add.go].

    The models come first, module by module; the properties follow, in one
    module of proofs per model. *)

From stdpp Require Import gmap strings list pretty.
From Stdlib Require Import ZArith Lia.
From Stdlib.Strings Require Import Byte.

#[global] Instance byte_eq_dec : EqDecision byte := Byte.byte_eq_dec.

(** Go's [int64] arithmetic wraps around in two's complement. *)
Definition wrap64 (z : Z) : Z := ((z + 2 ^ 63) mod 2 ^ 64 - 2 ^ 63)%Z.

(* ===================================================================== *)
(** ** The coordinator loop: [handleWebseedPieceResult]                   *)
(* ===================================================================== *)

Module Coordinator.

Local Open Scope Z_scope.

(** [bufferpool.Buffer]: the handler only looks at [Data]. *)
Record Buffer := { Data : list byte }.

(** [urldownloader.PieceResult], with the four fields the handler reads.
    [Downloader] is a pointer to the downloader of one webseed URL; it is
    identified here by that URL. [Error] is Go's [error]: [None] is [nil]. *)
Record PieceResult := {
  Downloader : string;
  MsgBuffer : Buffer;
  Index : nat;
  Error : option string
}.

(** [piece.Piece]: the handler reads and writes the [Writing] flag only. *)
Record Piece := { Writing : bool }.

(** The two suspendable channels the handler gates. *)
Inductive Chan := PieceMessagesC | WebseedPieceResultC.

(** [piecewriter.New(piece, msg.Downloader, msg.Buffer)]: [pwPiece] is the
    pointer [&t.pieces[i]], kept as the index [i]. *)
Record PieceWriter := {
  pwPiece : nat;
  pwSource : string;
  pwBuffer : Buffer
}.

(** What the handler does to objects outside the torrent struct, in program
    order. *)
Inductive Effect :=
| SpeedUpdate (n : Z)              (* t.downloadSpeed.Update(n) *)
| Suspend (c : Chan)               (* c.Suspend() *)
| GoPieceWriter (pw : PieceWriter) (* go pw.Run(t.pieceWriterResultC, t.doneC) *).

Record torrent := {
  pieces : list Piece;
  BytesDownloaded : Z;                    (* t.resumerStats.BytesDownloaded, int64 *)
  pieceMessagesSuspended : bool;          (* state of t.pieceMessagesC *)
  webseedPieceResultSuspended : bool;     (* state of t.webseedPieceResultC *)
  effects : list Effect;
  log : list string                       (* t.log.Errorln lines *)
}.

Definition set_pieces (ps : list Piece) (t : torrent) : torrent :=
  {| pieces := ps; BytesDownloaded := BytesDownloaded t;
     pieceMessagesSuspended := pieceMessagesSuspended t;
     webseedPieceResultSuspended := webseedPieceResultSuspended t;
     effects := effects t; log := log t |}.

Definition set_BytesDownloaded (n : Z) (t : torrent) : torrent :=
  {| pieces := pieces t; BytesDownloaded := n;
     pieceMessagesSuspended := pieceMessagesSuspended t;
     webseedPieceResultSuspended := webseedPieceResultSuspended t;
     effects := effects t; log := log t |}.

Definition emit (e : Effect) (t : torrent) : torrent :=
  {| pieces := pieces t; BytesDownloaded := BytesDownloaded t;
     pieceMessagesSuspended := pieceMessagesSuspended t;
     webseedPieceResultSuspended := webseedPieceResultSuspended t;
     effects := effects t ++ [e]; log := log t |}.

Definition Errorln (line : string) (t : torrent) : torrent :=
  {| pieces := pieces t; BytesDownloaded := BytesDownloaded t;
     pieceMessagesSuspended := pieceMessagesSuspended t;
     webseedPieceResultSuspended := webseedPieceResultSuspended t;
     effects := effects t; log := log t ++ [line] |}.

(** [c.Suspend()] closes the gate of [c] and is recorded as an effect. *)
Definition suspend (c : Chan) (t : torrent) : torrent :=
  let t' := emit (Suspend c) t in
  match c with
  | PieceMessagesC =>
      {| pieces := pieces t'; BytesDownloaded := BytesDownloaded t';
         pieceMessagesSuspended := true;
         webseedPieceResultSuspended := webseedPieceResultSuspended t';
         effects := effects t'; log := log t' |}
  | WebseedPieceResultC =>
      {| pieces := pieces t'; BytesDownloaded := BytesDownloaded t';
         pieceMessagesSuspended := pieceMessagesSuspended t';
         webseedPieceResultSuspended := true;
         effects := effects t'; log := log t' |}
  end.

(** A handler either returns to the loop or panics; a panic keeps the writes
    made before it and aborts the loop. *)
Inductive Outcome :=
| Returned (t : torrent)
| Panicked (reason : string) (t : torrent).

(** [func (t *torrent) handleWebseedPieceResult(msg *urldownloader.PieceResult)].
    Indexing [t.pieces] out of range is a run-time panic in Go. *)
Definition handleWebseedPieceResult (t : torrent) (msg : PieceResult) : Outcome :=
  match Error msg with
  | Some e =>
      (* TODO handle error *)
      Returned (Errorln ("webseed download error: " +:+ e) t)
  | None =>
      match pieces t !! Index msg with
      | None => Panicked "index out of range" t
      | Some piece =>
          let n := Z.of_nat (length (Data (MsgBuffer msg))) in
          let t1 := set_BytesDownloaded (wrap64 (BytesDownloaded t + n)) t in
          let t2 := emit (SpeedUpdate n) t1 in
          if Writing piece then Panicked "piece is already writing" t2
          else
            let t3 := set_pieces (<[Index msg := {| Writing := true |}]> (pieces t2)) t2 in
            let t4 := suspend PieceMessagesC t3 in
            let t5 := suspend WebseedPieceResultC t4 in
            let pw := {| pwPiece := Index msg; pwSource := Downloader msg;
                         pwBuffer := MsgBuffer msg |} in
            Returned (emit (GoPieceWriter pw) t5)
      end
  end.

(** *** The loop around the handler

    The loop receives from three sources that matter here. The handlers of
    piece messages and of piece-writer results are not part of the modelled
    file and stay abstract. *)
Section Loop.

Variable PieceMessage : Type.
Variable WriterResult : Type.
Variable handlePieceMessage : torrent -> PieceMessage -> Outcome.
Variable handlePieceWriterResult : torrent -> WriterResult -> Outcome.

Inductive Event :=
| EvPieceMessage (m : PieceMessage)
| EvWebseedPieceResult (msg : PieceResult)
| EvPieceWriterResult (r : WriterResult).

Definition isWriterResult (ev : Event) : bool :=
  match ev with EvPieceWriterResult _ => true | _ => false end.

(** Modelled from the spec: the suspendable channel type is not among the
    source files. Section 9: a gated source continues to receive from its
    upstream but defers delivery to the loop until ungated. [dispatch] is
    [None] when the gate of the event's channel is closed. *)
Definition dispatch (t : torrent) (ev : Event) : option Outcome :=
  match ev with
  | EvPieceMessage m =>
      if pieceMessagesSuspended t then None else Some (handlePieceMessage t m)
  | EvWebseedPieceResult msg =>
      if webseedPieceResultSuspended t then None
      else Some (handleWebseedPieceResult t msg)
  | EvPieceWriterResult r => Some (handlePieceWriterResult t r)
  end.

(** The loop over a schedule of events. A deferred event stays pending (it
    is returned in the second component); a panic ends the loop. *)
Fixpoint run (t : torrent) (evs : list Event) : Outcome * list Event :=
  match evs with
  | [] => (Returned t, [])
  | ev :: evs' =>
      match dispatch t ev with
      | None => let '(o, pending) := run t evs' in (o, ev :: pending)
      | Some (Returned t') => run t' evs'
      | Some (Panicked why t') => (Panicked why t', evs')
      end
  end.

End Loop.

Definition stateOf (o : Outcome) : torrent :=
  match o with Returned t => t | Panicked _ t => t end.

(** Writers started so far that hold piece [i]. *)
Definition writersOf (i : nat) (t : torrent) : list PieceWriter :=
  omap (fun e => match e with
                 | GoPieceWriter pw => if decide (pwPiece pw = i) then Some pw else None
                 | _ => None
                 end) (effects t).

(** Concrete states used in the examples: one 16 KiB piece. *)
Definition zeros16k : Buffer := {| Data := replicate (Z.to_nat 16384) x00 |}.

Definition idle1 : torrent :=
  {| pieces := [ {| Writing := false |} ]; BytesDownloaded := 0;
     pieceMessagesSuspended := false; webseedPieceResultSuspended := false;
     effects := []; log := [] |}.


Definition okResult : PieceResult :=
  {| Downloader := "http://seed/a"; MsgBuffer := zeros16k; Index := 0%nat; Error := None |}.

Definition errResult : PieceResult :=
  {| Downloader := "http://seed/a"; MsgBuffer := {| Data := [] |}; Index := 0%nat;
     Error := Some "unexpected status code: 500" |}.

End Coordinator.

(* ===================================================================== *)
(** ** The peer handshake of [rain.go]                                     *)
(* ===================================================================== *)

Module Rain.

Local Open Scope Z_scope.

(** [time.Duration] counts nanoseconds. *)
Definition Second : Z := 1000000000.
Definition Minute : Z := 60 * Second.

Definition bitTorrent10pstrLen : N := 19.
Definition bitTorrent10pstr : list byte :=
  String.list_byte_of_string "BitTorrent protocol".

(** The values of Go's [error] that the handshake code can see. *)
Inductive error :=
| ErrTimeout                 (* i/o timeout: the deadline of the conn passed *)
| ErrClosed                  (* use of closed network connection *)
| EOF                        (* io.EOF *)
| ErrUnexpectedEOF           (* io.ErrUnexpectedEOF *)
| ErrNet (msg : string)      (* any other error of the network stack *)
| ErrorsNew (msg : string)   (* errors.New(msg) *).

Definition errorString (e : error) : string :=
  match e with
  | ErrTimeout => "i/o timeout"
  | ErrClosed => "use of closed network connection"
  | EOF => "EOF"
  | ErrUnexpectedEOF => "unexpected EOF"
  | ErrNet msg => msg
  | ErrorsNew msg => msg
  end.

(** A [net.Conn] as the handshake code sees it. The peer's behaviour is part
    of the value: [incoming] are the bytes the peer sends, each with the time
    at which it becomes readable; after them the peer either closes the
    stream at [peerCloses] or stays silent for ever ([None]). [writeError]
    is the error our writes meet, if any. [deadline] is what [SetDeadline]
    stored ([None] is the zero [time.Time]: no deadline). *)
Record Conn := {
  incoming : list (Z * byte);
  peerCloses : option Z;
  writeError : option error;
  deadline : option Z;
  sent : list byte;
  closed : bool
}.

(** The goroutine's view: the conn, the clock, the buffered channel
    [infoHashC] (capacity 1; an entry carries the time of its send, which is
    when a waiting receiver wakes up) and the lines given to the logger. *)
Record World := {
  conn : Conn;
  now : Z;
  infoHashC : list (Z * list byte);
  logged : list string
}.

Definition set_conn (c : Conn) (w : World) : World :=
  {| conn := c; now := now w; infoHashC := infoHashC w; logged := logged w |}.
Definition set_now (t : Z) (w : World) : World :=
  {| conn := conn w; now := t; infoHashC := infoHashC w; logged := logged w |}.
Definition set_infoHashC (q : list (Z * list byte)) (w : World) : World :=
  {| conn := conn w; now := now w; infoHashC := q; logged := logged w |}.
Definition logLine (line : string) (w : World) : World :=
  {| conn := conn w; now := now w; infoHashC := infoHashC w;
     logged := logged w ++ [line] |}.

Definition set_incoming (l : list (Z * byte)) (c : Conn) : Conn :=
  {| incoming := l; peerCloses := peerCloses c; writeError := writeError c;
     deadline := deadline c; sent := sent c; closed := closed c |}.
Definition set_deadline (d : option Z) (c : Conn) : Conn :=
  {| incoming := incoming c; peerCloses := peerCloses c; writeError := writeError c;
     deadline := d; sent := sent c; closed := closed c |}.
Definition set_sent (l : list byte) (c : Conn) : Conn :=
  {| incoming := incoming c; peerCloses := peerCloses c; writeError := writeError c;
     deadline := deadline c; sent := l; closed := closed c |}.
Definition set_closed (b : bool) (c : Conn) : Conn :=
  {| incoming := incoming c; peerCloses := peerCloses c; writeError := writeError c;
     deadline := deadline c; sent := sent c; closed := b |}.

(** A call returns a value, returns an error, or blocks for ever. *)
Inductive Res (A : Type) :=
| Ok (a : A) (w : World)
| Fail (e : error) (w : World)
| Blocked (w : World).
Arguments Ok {A} a w.
Arguments Fail {A} e w.
Arguments Blocked {A} w.

Definition IO (A : Type) : Type := World -> Res A.

Definition ret {A} (a : A) : IO A := fun w => Ok a w.
Definition fail {A} (e : error) : IO A := fun w => Fail e w.
Definition bind {A B} (m : IO A) (k : A -> IO B) : IO B :=
  fun w => match m w with
           | Ok a w' => k a w'
           | Fail e w' => Fail e w'
           | Blocked w' => Blocked w'
           end.

Notation "x <- m ;; k" := (bind m (fun x => k))
  (at level 100, m at next level, right associativity).

Definition worldOf {A} (r : Res A) : World :=
  match r with Ok _ w => w | Fail _ w => w | Blocked w => w end.

(** An operation started or still waiting at time [t] fails once the
    deadline is reached. *)
Definition expired (c : Conn) (t : Z) : bool :=
  match deadline c with
  | Some d => bool_decide (d <= t)
  | None => false
  end.

(** The clock when a pending operation gives up. *)
Definition atDeadline (w : World) : World :=
  match deadline (conn w) with
  | Some d => set_now (Z.max (now w) d) w
  | None => w
  end.

(** [conn.Read] into a one-byte slice: waits for the next byte. *)
Definition connRead1 : IO byte := fun w =>
  let c := conn w in
  if closed c then Fail ErrClosed w
  else if expired c (now w) then Fail ErrTimeout w
  else match incoming c with
       | (t, b) :: rest =>
           let t' := Z.max (now w) t in
           if expired c t' then Fail ErrTimeout (atDeadline w)
           else Ok b (set_now t' (set_conn (set_incoming rest c) w))
       | [] =>
           match peerCloses c with
           | Some tc =>
               let t' := Z.max (now w) tc in
               if expired c t' then Fail ErrTimeout (atDeadline w)
               else Fail EOF (set_now t' w)
           | None =>
               match deadline c with
               | Some _ => Fail ErrTimeout (atDeadline w)
               | None => Blocked w
               end
           end
       end.

(** The loop of [io.ReadAtLeast]: [acc] are the bytes read so far. *)
Fixpoint readLoop (k : nat) (acc : list byte) : IO (list byte) :=
  match k with
  | O => ret acc
  | S k' => fun w =>
      match connRead1 w with
      | Ok b w' => readLoop k' (acc ++ [b]) w'
      | Fail e w' => Fail e w'
      | Blocked w' => Blocked w'
      end
  end.

(** [io.ReadFull(conn, buf)] with [len(buf) = k]: an end of stream after
    some but not all bytes is [io.ErrUnexpectedEOF]. *)
Definition readFull (k : nat) : IO (list byte) := fun w =>
  match readLoop k [] w with
  | Fail EOF w' =>
      if bool_decide (incoming (conn w) = []) then Fail EOF w'
      else Fail ErrUnexpectedEOF w'
  | r => r
  end.

(** [io.CopyN(ioutil.Discard, conn, n)]: the bytes are dropped; a short
    stream is [io.EOF]. *)
Definition copyNDiscard (n : nat) : IO unit := fun w =>
  match readLoop n [] w with
  | Ok _ w' => Ok tt w'
  | Fail e w' => Fail e w'
  | Blocked w' => Blocked w'
  end.

(** [conn.Write(bs)]. *)
Definition connWrite (bs : list byte) : IO unit := fun w =>
  let c := conn w in
  if closed c then Fail ErrClosed w
  else if expired c (now w) then Fail ErrTimeout w
  else match writeError c with
       | Some e => Fail e w
       | None => Ok tt (set_conn (set_sent (sent c ++ bs) c) w)
       end.

(** [conn.SetDeadline(t)]. *)
Definition SetDeadline (d : option Z) : IO unit := fun w =>
  if closed (conn w) then Fail ErrClosed w
  else Ok tt (set_conn (set_deadline d (conn w)) w).

(** [infoHashC <- &infoHash] on a channel of capacity 1. *)
Definition chanSend (ih : list byte) : IO unit := fun w =>
  match infoHashC w with
  | [] => Ok tt (set_infoHashC [(now w, ih)] w)
  | _ :: _ => Blocked w
  end.

(** Go's [copy(dst, src)] on byte slices. *)
Definition copy (dst src : list byte) : list byte :=
  take (length dst) src ++ drop (length src) dst.

Record Rain := { peerID : list byte }.

(** [var peerIDPrefix = []byte("-RN0001-")]. *)
Definition peerIDPrefix : list byte := String.list_byte_of_string "-RN0001-".

(** [func (r *Rain) generatePeerID() error]. [rand.Read] stores [random] in
    the slice it is given and returns [err]; [new(peerID)] is 20 zero
    bytes. The result is the receiver after the call and the error. *)
Definition generatePeerID (random : list byte) (err : option error)
  : Rain * option error :=
  let id0 := replicate 20 x00 in
  let id1 := copy id0 peerIDPrefix in
  let n := length peerIDPrefix in
  ({| peerID := take n id1 ++ copy (drop n id1) random |}, err).

(** [func New()]: [return r, r.generatePeerID()]. *)
Definition New (random : list byte) (err : option error) : Rain * option error :=
  generatePeerID random err.

(** [func (r *Rain) readHandShake(conn, notifyInfoHash)]; [notify] tells
    whether [notifyInfoHash] is non-nil. *)
Definition readHandShake (notify : bool) : IO (list byte) :=
  pstrlen <- connRead1 ;;
  if negb (N.eqb (Byte.to_N pstrlen) bitTorrent10pstrLen)
  then fail (ErrorsNew "unexpected pstrlen")
  else
    buf <- readFull (N.to_nat bitTorrent10pstrLen) ;;
    if negb (bool_decide (buf = bitTorrent10pstr))
    then fail (ErrorsNew "unexpected pstr")
    else
      _ <- copyNDiscard 8 ;;
      infoHash <- readFull 20 ;;
      _ <- (if notify then chanSend infoHash else ret tt) ;;
      readFull 20.

(** The struct that [sendHandShake] fills and [binary.Write] lays out field
    by field. *)
Record handShake := {
  hsPstrlen : byte;
  hsPstr : list byte;        (* [bitTorrent10pstrLen]byte *)
  hsReserved : list byte;    (* [8]byte *)
  hsInfoHash : list byte;    (* infoHash, [20]byte *)
  hsPeerID : list byte       (* peerID, [20]byte *)
}.

(** [binary.Write(conn, binary.BigEndian, &handShake)] encodes the fields in
    declaration order; byte arrays are copied as they are. *)
Definition binaryWrite (h : handShake) : list byte :=
  [hsPstrlen h] ++ hsPstr h ++ hsReserved h ++ hsInfoHash h ++ hsPeerID h.

Definition byteOfN (n : N) : byte := default x00 (Byte.of_N n).

(** [func (r *Rain) sendHandShake(conn, ih)]. *)
Definition sendHandShake (r : Rain) (ih : list byte) : IO unit :=
  let h := {| hsPstrlen := byteOfN bitTorrent10pstrLen;
              hsPstr := copy (replicate (N.to_nat bitTorrent10pstrLen) x00) bitTorrent10pstr;
              hsReserved := replicate 8 x00;
              hsInfoHash := ih;
              hsPeerID := peerID r |} in
  connWrite (binaryWrite h).

(** [func (r *Rain) communicateWithPeer(conn)]. *)
Definition communicateWithPeer : IO unit := SetDeadline None.

(** How a connection handler ends: it returns ([communicated] tells whether
    [communicateWithPeer] was reached), the dial failed, or the goroutine is
    blocked for ever. *)
Inductive Finish :=
| Done (communicated : bool) (w : World)
| DialFailed (e : error)
| Hung (w : World).

(** [conn.Close()]. *)
Definition Close (w : World) : World := set_conn (set_closed true (conn w)) w.

Definition returned {A} (r : Res A) : bool :=
  match r with Blocked _ => false | _ => true end.

(** [func (r *Rain) servePeerConn(conn)], the inbound path. The reader
    goroutine and the [select] of the main goroutine are put in sequence: the
    reader is run to its end first; the main goroutine wakes up at the time
    the info hash was put on [infoHashC], and sends the handshake at that
    time. When the reader has already finished, both cases of the [select]
    are ready and Go picks one at random: [errCFirst] is that choice.
    [defer conn.Close()] runs on every return. *)
Definition servePeerConn (r : Rain) (errCFirst : bool) (w : World) : Finish :=
  match SetDeadline (Some (now w + Minute)) w with
  | Ok _ w1 =>
      let reader := readHandShake true (set_infoHashC [] w1) in
      let w2 := worldOf reader in
      match infoHashC w2 with
      | (t, infoHash) :: q =>
          if errCFirst && returned reader
          then Done false (Close w2)                      (* case <-errC *)
          else
            match sendHandShake r infoHash (set_now t (set_infoHashC q w2)) with
            | Ok _ w3 =>
                match reader with                         (* err = <-errC *)
                | Ok _ _ =>
                    Done true (Close (worldOf (communicateWithPeer (set_now (now w2) w3))))
                | Fail _ _ => Done false (Close (set_now (now w2) w3))
                | Blocked _ => Hung w3
                end
            | Fail _ w3 => Done false (Close w3)
            | Blocked w3 => Hung w3
            end
      | [] =>
          match reader with
          | Blocked _ => Hung w2
          | _ => Done false (Close w2)                    (* case <-errC *)
          end
      end
  | Fail _ w1 => Done false (Close w1)
  | Blocked w1 => Hung w1
  end.

Record TorrentFile := { InfoHash : list byte }.
Record download := { dTorrentFile : TorrentFile }.

(** [func (r *Rain) connectToPeer(p, d)], the outbound path. [dial] is what
    [net.DialTCP] returned and [t0] the time of that return. Only the
    [log.Error] lines are kept. *)
Definition connectToPeer (r : Rain) (d : download) (dial : error + Conn) (t0 : Z)
  : Finish :=
  match dial with
  | inl e => DialFailed e
  | inr c =>
      let w := {| conn := c; now := t0; infoHashC := []; logged := [] |} in
      match sendHandShake r (InfoHash (dTorrentFile d)) w with
      | Fail e w1 => Done false (logLine (errorString e) w1)
      | Blocked w1 => Hung w1
      | Ok _ w1 =>
          match readHandShake true w1 with
          | Fail e w2 => Done false (logLine (errorString e) w2)
          | Blocked w2 => Hung w2
          | Ok _ w2 =>
              match infoHashC w2 with
              | [] => Hung w2                             (* <-infoHashC *)
              | (_, ih) :: q =>
                  let w3 := set_infoHashC q w2 in
                  if bool_decide (ih ≠ InfoHash (dTorrentFile d))
                  then Done false (logLine "unexpected info_hash" w3)
                  else Done true (worldOf (communicateWithPeer w3))
              end
          end
      end
  end.

(** The bytes of a handshake on the wire. *)
Definition handshakeBytes (reserved infoHash peerId : list byte) : list byte :=
  [x13] ++ bitTorrent10pstr ++ reserved ++ infoHash ++ peerId.

(** A peer whose bytes all arrive at time [t]. *)
Definition arrivingAt (t : Z) (bs : list byte) : list (Z * byte) :=
  map (fun b => (t, b)) bs.

Definition freshConn (inc : list (Z * byte)) (closes : option Z) : Conn :=
  {| incoming := inc; peerCloses := closes; writeError := None;
     deadline := None; sent := []; closed := false |}.

Definition startWorld (c : Conn) (t0 : Z) : World :=
  {| conn := c; now := t0; infoHashC := []; logged := [] |}.

(** Time at which the last of the bytes [l] has been read by a reader that
    starts at [t]. *)
Definition arrival (t : Z) (l : list (Z * byte)) : Z :=
  foldl (fun acc p => Z.max acc p.1) t l.

(** The world after the bytes [pre] have been read and [rest] is left. *)
Definition after (pre rest : list (Z * byte)) (w : World) : World :=
  set_now (arrival (now w) pre) (set_conn (set_incoming rest (conn w)) w).

(** What a read can change: the unread bytes and the clock, which only
    moves forward. *)
Definition readOnly (w w' : World) : Prop :=
  (exists l, conn w' = set_incoming l (conn w))
  /\ infoHashC w' = infoHashC w
  /\ logged w' = logged w
  /\ now w <= now w'.

(** The same without the channel: what [readHandShake] as a whole can
    change besides [infoHashC]. *)
Definition lineKept (w w' : World) : Prop :=
  (exists l, conn w' = set_incoming l (conn w))
  /\ logged w' = logged w
  /\ now w <= now w'.

(** The bytes a handler has put on the wire when it ends; a failed dial
    has no connection. *)
Definition sentBy (f : Finish) : list byte :=
  match f with
  | Done _ w => sent (conn w)
  | Hung w => sent (conn w)
  | DialFailed _ => []
  end.

(** The two reserved bits that section 4.4 of the spec names: the lsb of the
    7th reserved byte (fast extension) and bit 0x10 of the 5th reserved byte
    (extension protocol). *)
Definition fastExtension (reserved : list byte) : bool :=
  N.testbit (Byte.to_N (default x00 (reserved !! 6%nat))) 0.
Definition extensionProtocol (reserved : list byte) : bool :=
  N.testbit (Byte.to_N (default x00 (reserved !! 4%nat))) 4.

(** Concrete values for the examples. *)
Definition hashA : list byte := replicate 20 xaa.
Definition hashB : list byte := replicate 20 xbb.
Definition peerX : list byte := String.list_byte_of_string "-RN0001-abcdefghijkl".
Definition peerY : list byte := String.list_byte_of_string "-XX0001-mnopqrstuvwx".
Definition rainX : Rain := {| peerID := peerX |}.
Definition downloadA : download := {| dTorrentFile := {| InfoHash := hashA |} |}.

Definition noFlags : list byte := replicate 8 x00.
Definition bothFlags : list byte := [x00; x00; x00; x00; x10; x00; x01; x00].

(** A peer that accepts the connection and never sends a byte. *)
Definition silentPeer : Conn := freshConn [] None.

(** A peer whose whole handshake is readable at time 5. *)
Definition peerSending (reserved infoHash : list byte) : Conn :=
  freshConn (arrivingAt 5 (handshakeBytes reserved infoHash peerY)) None.

End Rain.

(* ===================================================================== *)
(** ** Adding a torrent to the session: [session_add.go]                  *)
(* ===================================================================== *)

(** Go's standard [encoding/base64]: [base64.RawURLEncoding], the URL-safe
    alphabet of RFC 4648 without padding. *)
Module base64.

Local Open Scope Z_scope.

Definition encodeURL : string :=
  "ABCDEFGHIJKLMNOPQRSTUVWXYZabcdefghijklmnopqrstuvwxyz0123456789-_".

(** [enc.encode[v & 0x3F]]. *)
Definition encode (v : Z) : Ascii.ascii :=
  default Ascii.zero (String.get (Z.to_nat (Z.land v 63)) encodeURL).

Definition byteZ (b : byte) : Z := Z.of_N (Byte.to_N b).

(** [RawURLEncoding.EncodeToString]: three bytes give four characters; a
    remainder of one or two bytes gives two or three, with no padding. *)
Fixpoint EncodeToString (src : list byte) : string :=
  match src with
  | a :: b :: c :: rest =>
      let val := Z.lor (Z.lor (Z.shiftl (byteZ a) 16) (Z.shiftl (byteZ b) 8)) (byteZ c) in
      String (encode (Z.shiftr val 18)) (String (encode (Z.shiftr val 12))
        (String (encode (Z.shiftr val 6)) (String (encode val) (EncodeToString rest))))
  | [a; b] =>
      let val := Z.lor (Z.shiftl (byteZ a) 16) (Z.shiftl (byteZ b) 8) in
      String (encode (Z.shiftr val 18)) (String (encode (Z.shiftr val 12))
        (String (encode (Z.shiftr val 6)) EmptyString))
  | [a] =>
      let val := Z.shiftl (byteZ a) 16 in
      String (encode (Z.shiftr val 18)) (String (encode (Z.shiftr val 12)) EmptyString)
  | [] => EmptyString
  end.

(** Membership in the URL-safe alphabet. *)
Definition urlSafe (c : Ascii.ascii) : bool :=
  bool_decide (c ∈ String.list_ascii_of_string encodeURL).

Definition allUrlSafe (s : string) : bool :=
  forallb urlSafe (String.list_ascii_of_string s).

End base64.

(** The packages whose values cross [session_add.go]; each record has the
    fields that file reads or writes. *)
Module metainfo.
Record Info := {
  Hash : list byte;          (* [20]byte *)
  Name : string;
  Bytes : list byte;
  IsPrivate : bool           (* the method IsPrivate() *)
}.
Record MetaInfo := {
  Info_ : Info;
  AnnounceList : list (list string);
  URLList : list string
}.
End metainfo.

Module magnet.
Record Magnet := {
  InfoHash : list byte;      (* [20]byte *)
  Name : string;
  Trackers : list (list string);
  Peers : list string
}.
End magnet.

Module filestorage.
(** A storage is known by the directory given to [filestorage.New]; the
    method [Dest()] returns it. *)
Record FileStorage := { Dest : string }.
End filestorage.

Module boltdbresumer.
Record Spec := {
  InfoHash : list byte;
  Dest : string;
  Port : Z;
  Name : string;
  Trackers : list (list string);
  URLList : list string;
  FixedPeers : list string;
  Info : list byte;
  AddedAt : Z
}.
End boltdbresumer.

Module SessionAdd.

Local Open Scope Z_scope.

(** Go's [error] values are kept as their messages. *)
Definition error := string.

Record AddTorrentOptions := { Stopped : bool }.

Record Config := {
  DataDir : string;
  MaxTorrentSize : Z
}.

(** What [newTorrent2] is given, in argument order; the two arguments that
    both callers pass as constants ([nil] bitfield, zero [resumer.Stats]) are
    left out. The last two fields are the webseed fields that
    [addTorrentStopped] assigns after construction. *)
Record torrent := {
  id : string;
  addedAt : Z;
  infoHash : list byte;
  storage : filestorage.FileStorage;
  name : string;
  port : Z;
  trackers : list string;
  fixedPeers : list string;
  info : option metainfo.Info;
  webseedClient : bool;               (* t.webseedClient = &s.webseedClient *)
  webseedSources : list string        (* webseedsource.NewList(mi.URLList) *)
}.

Definition set_webseed (urls : list string) (t : torrent) : torrent :=
  {| id := id t; addedAt := addedAt t; infoHash := infoHash t; storage := storage t;
     name := name t; port := port t; trackers := trackers t;
     fixedPeers := fixedPeers t; info := info t;
     webseedClient := true; webseedSources := urls |}.

(** The public handle [Torrent{torrent: t}]. *)
Record Torrent := { torrent_ : torrent }.

(** Everything the file calls outside itself: parsers, the UUID generator,
    the file system, the torrent constructor, the resume store, the clock,
    and the choices Go leaves open. An [error + A] is a call that returns
    [(A, error)]; an [option error] is a call that returns [error]. *)
Record Env := {
  metainfo_New : list byte -> error + metainfo.MetaInfo;
  magnet_New : string -> error + magnet.Magnet;
  uuid_NewV1 : error + list byte;                      (* a [16]byte on success *)
  filepath_Join : string -> string -> string;
  filestorage_New : string -> option error;
  newTorrent2_error : torrent -> option error;
  resumer_Write_error : string -> boltdbresumer.Spec -> option error;
  parseTrackers : list (list string) -> bool -> list string;
  time_Now : Z;
  Start_error : torrent -> option error;
  portChoice : nat                                     (* which free port getPort meets first *)
}.

(** The session: its configuration, the port allocator, the resume store
    and the two registries of [insertTorrent]. *)
Record Session := {
  config : Config;
  availablePorts : gset Z;
  resumer : gmap string boltdbresumer.Spec;
  torrents : gmap string Torrent;
  torrentsByInfoHash : gmap string (list Torrent)
}.

(** Calls on objects other than the session, in program order. *)
Inductive Event :=
| GetPort (p : Z)
| ReleasePort (p : Z)
| GoCheckTorrent (tid : string)      (* go s.checkTorrent(t) *)
| CloseTorrent (tid : string)        (* t.Close() *)
| StartTorrent (tid : string)        (* t.Start() *).

Record World := {
  session : Session;
  events : list Event
}.

Definition emit (e : Event) (w : World) : World :=
  {| session := session w; events := events w ++ [e] |}.

Definition set_availablePorts (ps : gset Z) (s : Session) : Session :=
  {| config := config s; availablePorts := ps; resumer := resumer s;
     torrents := torrents s; torrentsByInfoHash := torrentsByInfoHash s |}.

Definition set_resumer (db : gmap string boltdbresumer.Spec) (s : Session) : Session :=
  {| config := config s; availablePorts := availablePorts s; resumer := db;
     torrents := torrents s; torrentsByInfoHash := torrentsByInfoHash s |}.

Definition set_registries (ts : gmap string Torrent) (by_ih : gmap string (list Torrent))
    (s : Session) : Session :=
  {| config := config s; availablePorts := availablePorts s; resumer := resumer s;
     torrents := ts; torrentsByInfoHash := by_ih |}.

(** Modelled from the spec: the port allocator ([s.getPort], [s.releasePort])
    is not among the source files. Section 6: acquire() gives a port,
    release(port) gives it back; section 7: out of ports is an error. The
    allocator is the set of free ports; [portChoice] picks among them. *)
Definition getPort (E : Env) (w : World) : (error + Z) * World :=
  match elements (availablePorts (session w)) with
  | [] => (inl "no free port", w)
  | p0 :: ps =>
      let p := default p0 ((p0 :: ps) !! (portChoice E mod length (p0 :: ps))%nat) in
      (inr p,
       emit (GetPort p)
         {| session := set_availablePorts (availablePorts (session w) ∖ {[p]}) (session w);
            events := events w |})
  end.

(** Modelled from the spec: see [getPort]. *)
Definition releasePort (p : Z) (w : World) : World :=
  emit (ReleasePort p)
    {| session := set_availablePorts ({[p]} ∪ availablePorts (session w)) (session w);
       events := events w |}.

(** Modelled from the spec: the resume store is not among the source files.
    Section 6: write(id, snapshot); a write that fails stores nothing. *)
Definition resumerWrite (E : Env) (tid : string) (spec : boltdbresumer.Spec) (w : World)
  : option error * World :=
  match resumer_Write_error E tid spec with
  | Some e => (Some e, w)
  | None =>
      (None, {| session := set_resumer (<[tid := spec]> (resumer (session w))) (session w);
                events := events w |})
  end.

(** [newTorrent2] is not among the source files: its error is a parameter,
    and on success the torrent keeps the arguments it was built from. *)
Definition newTorrent2 (E : Env) (args : torrent) : error + torrent :=
  match newTorrent2_error E args with
  | Some e => inl e
  | None => inr args
  end.

(** A deferred closure [func() { if err != nil { ... } }()]: it reads the
    variable [err] when the function returns. *)
Definition deferred := option error -> World -> World.

Definition onError (f : World -> World) : deferred :=
  fun err w => match err with Some _ => f w | None => w end.

(** Deferred calls run last-in first-out; the list has the latest first. *)
Definition runDefers (ds : list deferred) (err : option error) (w : World) : World :=
  foldl (fun w d => d err w) w ds.

(** [func (s *Session) add()] with the named results [id], [port], [sto]
    and [err]. *)
Definition add (E : Env) (w : World)
  : (error + (string * Z * filestorage.FileStorage)) * World :=
  match getPort E w with
  | (inl e, w1) => (inl e, w1)
  | (inr port, w1) =>
      let release := onError (releasePort port) in
      match uuid_NewV1 E with
      | inl e => (inl e, runDefers [release] (Some e) w1)
      | inr u1 =>
          let id := base64.EncodeToString u1 in
          let dest := filepath_Join E (DataDir (config (session w1))) id in
          match filestorage_New E dest with
          | Some e => (inl e, runDefers [release] (Some e) w1)
          | None =>
              (inr (id, port, {| filestorage.Dest := dest |}),
               runDefers [release] None w1)
          end
      end
  end.

(** [func (s *Session) insertTorrent(t)]. *)
Definition insertTorrent (t : torrent) (w : World) : Torrent * World :=
  let t2 := {| torrent_ := t |} in
  let s := session w in
  let ih := String.string_of_list_byte (infoHash t) in       (* dht.InfoHash(t.InfoHash()) *)
  (t2,
   {| session :=
        set_registries (<[id t := t2]> (torrents s))
          (<[ih := default [] (torrentsByInfoHash s !! ih) ++ [t2]]> (torrentsByInfoHash s))
          s;
      events := events w |}).

(** [func (s *Session) addTorrentStopped(r io.Reader)]; [r] is the content
    of the reader. The result is the returned pair and the world after. *)
Definition addTorrentStopped (E : Env) (r : list byte) (w : World)
  : option Torrent * option error * World :=
  let r := take (Z.to_nat (MaxTorrentSize (config (session w)))) r in   (* io.LimitReader *)
  match metainfo_New E r with
  | inl e => (None, Some e, w)
  | inr mi =>
      match add E w with
      | (inl e, w1) => (None, Some e, w1)
      | (inr (id, port, sto), w1) =>
          let release := onError (releasePort port) in
          let info := metainfo.Info_ mi in
          let args :=
            {| id := id; addedAt := time_Now E; infoHash := metainfo.Hash info;
               storage := sto; name := metainfo.Name info; port := port;
               trackers := parseTrackers E (metainfo.AnnounceList mi) (metainfo.IsPrivate info);
               fixedPeers := []; info := Some info;
               webseedClient := false; webseedSources := [] |} in
          match newTorrent2 E args with
          | inl e => (None, Some e, runDefers [release] (Some e) w1)
          | inr t =>
              let t := set_webseed (metainfo.URLList mi) t in
              let w2 := emit (GoCheckTorrent (SessionAdd.id t)) w1 in
              let close := onError (emit (CloseTorrent (SessionAdd.id t))) in
              let rspec :=
                {| boltdbresumer.InfoHash := metainfo.Hash info;
                   boltdbresumer.Dest := filestorage.Dest sto;
                   boltdbresumer.Port := port;
                   boltdbresumer.Name := metainfo.Name info;
                   boltdbresumer.Trackers := metainfo.AnnounceList mi;
                   boltdbresumer.URLList := metainfo.URLList mi;
                   boltdbresumer.FixedPeers := [];
                   boltdbresumer.Info := metainfo.Bytes info;
                   boltdbresumer.AddedAt := addedAt t |} in
              match resumerWrite E id rspec w2 with
              | (Some e, w3) => (None, Some e, runDefers [close; release] (Some e) w3)
              | (None, w3) =>
                  let '(t2, w4) := insertTorrent t w3 in
                  (Some t2, None, runDefers [close; release] None w4)
              end
          end
      end
  end.

(** [t.Start()] on the handle. *)
Definition Start (E : Env) (t2 : Torrent) (w : World) : option error * World :=
  (Start_error E (torrent_ t2), emit (StartTorrent (id (torrent_ t2))) w).

Definition wantsStart (opt : option AddTorrentOptions) : bool :=
  match opt with
  | None => true                      (* opt == nil *)
  | Some o => negb (Stopped o)        (* !opt.Stopped *)
  end.

(** [func (s *Session) AddTorrent(r, opt)]; [opt = None] is a nil pointer. *)
Definition AddTorrent (E : Env) (r : list byte) (opt : option AddTorrentOptions)
    (w : World) : option Torrent * option error * World :=
  match addTorrentStopped E r w with
  | (Some t, None, w1) =>
      if wantsStart opt
      then let '(err, w2) := Start E t w1 in (Some t, err, w2)
      else (Some t, None, w1)
  | (_, err, w1) => (None, err, w1)
  end.

(** [func (s *Session) addMagnet(link, opt)]. The two deferred closures read
    [err] at the final [return t2, err] too. *)
Definition addMagnet (E : Env) (link : string) (opt : option AddTorrentOptions)
    (w : World) : option Torrent * option error * World :=
  match magnet_New E link with
  | inl e => (None, Some e, w)
  | inr ma =>
      match add E w with
      | (inl e, w1) => (None, Some e, w1)
      | (inr (id, port, sto), w1) =>
          let release := onError (releasePort port) in
          let args :=
            {| id := id; addedAt := time_Now E; infoHash := magnet.InfoHash ma;
               storage := sto; name := magnet.Name ma; port := port;
               trackers := parseTrackers E (magnet.Trackers ma) false;
               fixedPeers := magnet.Peers ma; info := None;
               webseedClient := false; webseedSources := [] |} in
          match newTorrent2 E args with
          | inl e => (None, Some e, runDefers [release] (Some e) w1)
          | inr t =>
              let w2 := emit (GoCheckTorrent (SessionAdd.id t)) w1 in
              let close := onError (emit (CloseTorrent (SessionAdd.id t))) in
              let rspec :=
                {| boltdbresumer.InfoHash := magnet.InfoHash ma;
                   boltdbresumer.Dest := filestorage.Dest sto;
                   boltdbresumer.Port := port;
                   boltdbresumer.Name := magnet.Name ma;
                   boltdbresumer.Trackers := magnet.Trackers ma;
                   boltdbresumer.URLList := [];
                   boltdbresumer.FixedPeers := magnet.Peers ma;
                   boltdbresumer.Info := [];
                   boltdbresumer.AddedAt := addedAt t |} in
              match resumerWrite E id rspec w2 with
              | (Some e, w3) => (None, Some e, runDefers [close; release] (Some e) w3)
              | (None, w3) =>
                  let '(t2, w4) := insertTorrent t w3 in
                  let '(err, w5) :=
                    if wantsStart opt then Start E t2 w4 else (None, w4) in
                  (Some t2, err, runDefers [close; release] err w5)
              end
          end
      end
  end.

(** [b < ' ' || b == 0x7f] on a byte of the string. *)
Definition isControl (b : Ascii.ascii) : bool :=
  (Ascii.N_of_ascii b <? 32)%N || (Ascii.N_of_ascii b =? 127)%N.

(** [func filterOutControlChars(s string) string]: the loop over the bytes
    of [s] that appends to the builder every byte it does not skip. *)
Fixpoint filterOutControlChars (s : string) : string :=
  match s with
  | EmptyString => EmptyString
  | String b s' =>
      if isControl b then filterOutControlChars s'
      else String b (filterOutControlChars s')
  end.

(** What [url.Parse] gives that [AddURI] reads, and what [client.Get] gives
    that [addURL] reads. *)
Record URL := { Scheme : string }.
Record Response := { ContentLength : Z; Body : list byte }.

(** The two calls of [AddURI] and [addURL] that leave the process. *)
Record Net := {
  url_Parse : string -> error + URL;
  http_Get : string -> error + Response
}.

(** [func (s *Session) addURL(u, opt)]. The deferred [resp.Body.Close()]
    acts on the response only. *)
Definition addURL (E : Env) (N : Net) (u : string) (opt : option AddTorrentOptions)
    (w : World) : option Torrent * option error * World :=
  match http_Get N u with
  | inl e => (None, Some e, w)
  | inr resp =>
      let max := MaxTorrentSize (config (session w)) in
      if (max <? ContentLength resp)%Z
      then (None, Some ("torrent too large: " +:+ pretty (ContentLength resp)), w)
      else AddTorrent E (take (Z.to_nat max) (Body resp)) opt w   (* io.LimitReader *)
  end.

(** [func (s *Session) AddURI(uri, opt)]. *)
Definition AddURI (E : Env) (N : Net) (uri : string) (opt : option AddTorrentOptions)
    (w : World) : option Torrent * option error * World :=
  let uri := filterOutControlChars uri in
  match url_Parse N uri with
  | inl e => (None, Some e, w)
  | inr u =>
      if String.eqb (Scheme u) "http" || String.eqb (Scheme u) "https"
      then addURL E N uri opt w
      else if String.eqb (Scheme u) "magnet"
      then addMagnet E uri opt w
      else (None, Some ("unsupported uri scheme: " +:+ Scheme u), w)
  end.

(** How the events of a failed add may extend the events before it: nothing
    was acquired; or a port was acquired and released; or, with a torrent
    already constructed, its check was started, and it was closed before the
    port was released. *)
Definition undone (before after : list Event) : Prop :=
  after = before
  \/ (exists p, after = before ++ [GetPort p; ReleasePort p])
  \/ (exists p tid,
        after = before ++ [GetPort p; GoCheckTorrent tid; CloseTorrent tid;
                           ReleasePort p]).

(** Concrete values for the examples. *)
Definition uuid1 : list byte :=
  [x6b; xa7; xb8; x10; x9d; xad; x11; xd1; x80; xb4; x00; xc0; x4f; xd4; x30; xc8].

Definition info0 : metainfo.Info :=
  {| metainfo.Hash := replicate 20 xaa; metainfo.Name := "debian.iso";
     metainfo.Bytes := [x64; x65]; metainfo.IsPrivate := false |}.

Definition mi0 : metainfo.MetaInfo :=
  {| metainfo.Info_ := info0;
     metainfo.AnnounceList := [["http://tracker/announce"]];
     metainfo.URLList := ["http://seed/debian.iso"] |}.

Definition ma0 : magnet.Magnet :=
  {| magnet.InfoHash := replicate 20 xbb; magnet.Name := "ubuntu.iso";
     magnet.Trackers := [["udp://tracker:6969"]]; magnet.Peers := [] |}.

Definition env0 : Env :=
  {| metainfo_New := fun _ => inr mi0;
     magnet_New := fun _ => inr ma0;
     uuid_NewV1 := inr uuid1;
     filepath_Join := fun dir f => dir +:+ "/" +:+ f;
     filestorage_New := fun _ => None;
     newTorrent2_error := fun _ => None;
     resumer_Write_error := fun _ _ => None;
     parseTrackers := fun tiers _ => concat tiers;
     time_Now := 1700000000;
     Start_error := fun _ => None;
     portChoice := 0 |}.

(** The same environment with a resume store that refuses the write. *)
Definition envWriteFails : Env :=
  {| metainfo_New := metainfo_New env0;
     magnet_New := magnet_New env0;
     uuid_NewV1 := uuid_NewV1 env0;
     filepath_Join := filepath_Join env0;
     filestorage_New := filestorage_New env0;
     newTorrent2_error := newTorrent2_error env0;
     resumer_Write_error := fun _ _ => Some "database not open";
     parseTrackers := parseTrackers env0;
     time_Now := time_Now env0;
     Start_error := Start_error env0;
     portChoice := portChoice env0 |}.

(** The same environment with torrents that fail to start. *)
Definition envStartFails : Env :=
  {| metainfo_New := metainfo_New env0;
     magnet_New := magnet_New env0;
     uuid_NewV1 := uuid_NewV1 env0;
     filepath_Join := filepath_Join env0;
     filestorage_New := filestorage_New env0;
     newTorrent2_error := newTorrent2_error env0;
     resumer_Write_error := resumer_Write_error env0;
     parseTrackers := parseTrackers env0;
     time_Now := time_Now env0;
     Start_error := fun _ => Some "torrent is closed";
     portChoice := portChoice env0 |}.

(** A network on which every URL parses to the given scheme and every
    download answers with the given response. *)
Definition netOf (scheme : string) (resp : Response) : Net :=
  {| url_Parse := fun _ => inr {| Scheme := scheme |};
     http_Get := fun _ => inr resp |}.

Definition session0 : Session :=
  {| config := {| DataDir := "/data"; MaxTorrentSize := 10485760 |};
     availablePorts := {[ 50000; 50001 ]};
     resumer := ∅; torrents := ∅; torrentsByInfoHash := ∅ |}.

Definition world0 : World := {| session := session0; events := [] |}.

End SessionAdd.

(* ===================================================================== *)
(** * Properties                                                          *)
(* ===================================================================== *)

Lemma wrap64_small (z : Z) :
  (- 2 ^ 63 <= z < 2 ^ 63)%Z -> wrap64 z = z.
Proof.
  intros Hz. unfold wrap64.
  rewrite Z.mod_small by lia. lia.
Qed.

Module CoordinatorProofs.

Import Coordinator.
Local Open Scope Z_scope.

(** The handler's four ways out, one equation each. *)
Lemma handle_error t msg e :
  Error msg = Some e ->
  handleWebseedPieceResult t msg
  = Returned (Errorln ("webseed download error: " +:+ e) t).
Proof. intros He. unfold handleWebseedPieceResult. now rewrite He. Qed.

Lemma handle_out_of_range t msg :
  Error msg = None -> pieces t !! Index msg = None ->
  handleWebseedPieceResult t msg = Panicked "index out of range" t.
Proof. intros He Hp. unfold handleWebseedPieceResult. now rewrite He, Hp. Qed.

Lemma handle_writing t msg piece :
  Error msg = None -> pieces t !! Index msg = Some piece -> Writing piece = true ->
  handleWebseedPieceResult t msg
  = Panicked "piece is already writing"
      (emit (SpeedUpdate (Z.of_nat (length (Data (MsgBuffer msg)))))
         (set_BytesDownloaded
            (wrap64 (BytesDownloaded t + Z.of_nat (length (Data (MsgBuffer msg))))) t)).
Proof.
  intros He Hp Hw. unfold handleWebseedPieceResult.
  rewrite He, Hp. cbn zeta. now rewrite Hw.
Qed.

Lemma handle_idle t msg piece :
  Error msg = None -> pieces t !! Index msg = Some piece -> Writing piece = false ->
  handleWebseedPieceResult t msg
  = Returned
      (emit (GoPieceWriter {| pwPiece := Index msg; pwSource := Downloader msg;
                              pwBuffer := MsgBuffer msg |})
         (suspend WebseedPieceResultC
            (suspend PieceMessagesC
               (set_pieces (<[Index msg := {| Writing := true |}]> (pieces t))
                  (emit (SpeedUpdate (Z.of_nat (length (Data (MsgBuffer msg)))))
                     (set_BytesDownloaded
                        (wrap64 (BytesDownloaded t
                                 + Z.of_nat (length (Data (MsgBuffer msg))))) t)))))).
Proof.
  intros He Hp Hw. unfold handleWebseedPieceResult.
  rewrite He, Hp. cbn zeta. now rewrite Hw.
Qed.

Lemma writersOf_app i t es :
  writersOf i {| pieces := pieces t; BytesDownloaded := BytesDownloaded t;
                 pieceMessagesSuspended := pieceMessagesSuspended t;
                 webseedPieceResultSuspended := webseedPieceResultSuspended t;
                 effects := effects t ++ es; log := log t |}
  = writersOf i t
    ++ omap (fun e => match e with
                      | GoPieceWriter pw => if decide (pwPiece pw = i) then Some pw else None
                      | _ => None
                      end) es.
Proof. unfold writersOf. cbn. apply omap_app. Qed.

(** While both gates are closed, a schedule without a writer result leaves
    the loop where it is and every event pending. *)
Lemma run_gated {PM WR} (hpm : torrent -> PM -> Outcome) (hpw : torrent -> WR -> Outcome)
    (t : torrent) (evs : list (Event PM WR)) :
  pieceMessagesSuspended t = true ->
  webseedPieceResultSuspended t = true ->
  forallb (fun ev => negb (isWriterResult PM WR ev)) evs = true ->
  run PM WR hpm hpw t evs = (Returned t, evs).
Proof.
  intros Hpm Hws. induction evs as [|ev evs IH]; intros Hall.
  - reflexivity.
  - cbn in Hall. apply andb_prop in Hall as [Hev Hrest].
    destruct ev as [m|msg|r]; cbn in *.
    + rewrite Hpm, (IH Hrest). reflexivity.
    + rewrite Hws, (IH Hrest). reflexivity.
    + discriminate.
Qed.





(** The guard of the handler itself: called on a result without error whose
    piece is already Writing, it panics with "piece is already writing". At
    the panic the pieces, both gates and the writers of every piece are as
    before; the buffer length has already been counted. The closed gate
    keeps the loop from making this call. *)
Lemma result_while_writing_panics (t : torrent) (msg : PieceResult) (piece : Piece) :
  Error msg = None ->
  pieces t !! Index msg = Some piece ->
  Writing piece = true ->
  exists t',
    handleWebseedPieceResult t msg = Panicked "piece is already writing" t'
    /\ pieces t' = pieces t
    /\ pieceMessagesSuspended t' = pieceMessagesSuspended t
    /\ webseedPieceResultSuspended t' = webseedPieceResultSuspended t
    /\ (forall i, writersOf i t' = writersOf i t)
    /\ effects t' = effects t ++ [SpeedUpdate (Z.of_nat (length (Data (MsgBuffer msg))))]
    /\ BytesDownloaded t'
       = wrap64 (BytesDownloaded t + Z.of_nat (length (Data (MsgBuffer msg)))).
Proof.
  intros He Hp Hw. eexists. split; [exact (handle_writing t msg piece He Hp Hw)|].
  repeat split.
  intros i. unfold writersOf. cbn. rewrite omap_app. cbn. apply app_nil_r.
Qed.

(** C2, evaluated at a failing input: a webseed result that carries an
    error (a 500 response) for the piece of [idle1]. The handler writes one
    log line and returns: no field of the torrent changes, so nothing
    disables the URL, nothing starts a backoff, and the piece is left as it
    was instead of being handed back for a new attempt. *)
Lemma webseed_error_only_logged :
  handleWebseedPieceResult idle1 errResult
  = Returned (Errorln "webseed download error: unexpected status code: 500" idle1)
  /\ pieces (stateOf (handleWebseedPieceResult idle1 errResult)) = pieces idle1
  /\ effects (stateOf (handleWebseedPieceResult idle1 errResult)) = [].
Proof. repeat split. Qed.

(** The same for every torrent and every result with an error: the state
    after differs from the state before in the log only. *)
Lemma webseed_error_state (t : torrent) (msg : PieceResult) (e : string) :
  Error msg = Some e ->
  exists t', handleWebseedPieceResult t msg = Returned t'
             /\ pieces t' = pieces t
             /\ BytesDownloaded t' = BytesDownloaded t
             /\ pieceMessagesSuspended t' = pieceMessagesSuspended t
             /\ webseedPieceResultSuspended t' = webseedPieceResultSuspended t
             /\ effects t' = effects t.
Proof.
  intros He. rewrite (handle_error t msg e He). eexists. repeat split.
Qed.

(** C3: a successful webseed result for a piece that is not Writing makes
    the handler return (no panic) with that piece Writing and every other
    piece untouched; it closes the gate of the piece messages, then the gate
    of the webseed results, and only then starts the piece writer, exactly
    one, on that piece with the result's buffer. From the state it leaves,
    no schedule of piece messages and webseed results reaches a handler:
    all of them stay pending and the state stays the same until a
    piece-writer result is delivered, whatever the other two handlers are. *)
Theorem result_starts_single_writer
    {PM WR : Type} (hpm : torrent -> PM -> Outcome) (hpw : torrent -> WR -> Outcome)
    (t : torrent) (msg : PieceResult) (piece : Piece) :
  Error msg = None ->
  pieces t !! Index msg = Some piece ->
  Writing piece = false ->
  let pw := {| pwPiece := Index msg; pwSource := Downloader msg;
               pwBuffer := MsgBuffer msg |} in
  exists t',
    handleWebseedPieceResult t msg = Returned t'
    /\ pieces t' !! Index msg = Some {| Writing := true |}
    /\ (forall j, j <> Index msg -> pieces t' !! j = pieces t !! j)
    /\ effects t'
       = effects t ++ [SpeedUpdate (Z.of_nat (length (Data (MsgBuffer msg))));
                       Suspend PieceMessagesC; Suspend WebseedPieceResultC;
                       GoPieceWriter pw]
    /\ writersOf (Index msg) t' = writersOf (Index msg) t ++ [pw]
    /\ (forall j, j <> Index msg -> writersOf j t' = writersOf j t)
    /\ pieceMessagesSuspended t' = true
    /\ webseedPieceResultSuspended t' = true
    /\ (forall evs : list (Event PM WR),
          forallb (fun ev => negb (isWriterResult PM WR ev)) evs = true ->
          run PM WR hpm hpw t' evs = (Returned t', evs)).
Proof.
  intros He Hp Hw pw.
  eexists. split; [exact (handle_idle t msg piece He Hp Hw)|].
  assert (Hlt : (Index msg < length (pieces t))%nat)
    by (apply lookup_lt_is_Some; eauto).
  split; [cbn; now apply list_lookup_insert_eq|].
  split; [intros j Hj; cbn; now apply list_lookup_insert_ne|].
  split; [cbn; now rewrite <- !app_assoc|].
  split.
  { unfold writersOf. cbn. rewrite !omap_app. cbn.
    rewrite decide_True by reflexivity. now rewrite !app_nil_r. }
  split.
  { intros j Hj. unfold writersOf. cbn. rewrite !omap_app. cbn.
    rewrite decide_False by (cbn; congruence). now rewrite !app_nil_r. }
  split; [reflexivity|]. split; [reflexivity|].
  intros evs Hevs. now apply run_gated.
Qed.

Lemma result_starts_single_writer_witness :
  exists t',
    handleWebseedPieceResult idle1 okResult = Returned t'
    /\ pieces t' !! 0%nat = Some {| Writing := true |}
    /\ pieceMessagesSuspended t' = true
    /\ webseedPieceResultSuspended t' = true
    /\ run unit unit (fun t _ => Returned t) (fun t _ => Returned t) t'
         [EvWebseedPieceResult unit unit okResult; EvPieceMessage unit unit tt]
       = (Returned t',
          [EvWebseedPieceResult unit unit okResult; EvPieceMessage unit unit tt]).
Proof.
  destruct (result_starts_single_writer (PM := unit) (WR := unit)
              (fun t _ => Returned t) (fun t _ => Returned t)
              idle1 okResult {| Writing := false |}
              eq_refl eq_refl eq_refl)
    as (t' & Hret & Hp & _ & _ & _ & _ & Hg1 & Hg2 & Hrun).
  exists t'. repeat split; try assumption.
  apply Hrun. reflexivity.
Defined.

(** C4, as stated, fails: BytesDownloaded moves when the webseed result is
    handled, not on a later Verified event. On [idle1] the counter goes from
    0 to 16384 in the handler, whose last act is to start the piece writer:
    the hash of the buffer has not been looked at yet. *)
Lemma bytesDownloaded_counted_on_receipt :
  ~ (forall t msg t',
       handleWebseedPieceResult t msg = Returned t' ->
       BytesDownloaded t' = BytesDownloaded t).
Proof.
  intros H.
  specialize (H idle1 okResult _ (handle_idle idle1 okResult {| Writing := false |}
                                    eq_refl eq_refl eq_refl)).
  vm_compute in H. discriminate.
Qed.

(** C4 (amended): BytesDownloaded is increased by the length of the buffer
    (in int64 arithmetic) as soon as a webseed result without error is
    handled, whether the handler goes on to start the piece writer or
    panics; the writer, and with it the hash check, comes after. The
    increase does not depend on the content of the buffer, so a buffer that
    fails verification later has been counted all the same. *)
Theorem bytesDownloaded_counted_before_writer
    (t : torrent) (msg : PieceResult) (piece : Piece) :
  Error msg = None ->
  pieces t !! Index msg = Some piece ->
  let n := Z.of_nat (length (Data (MsgBuffer msg))) in
  BytesDownloaded (stateOf (handleWebseedPieceResult t msg))
  = wrap64 (BytesDownloaded t + n)
  /\ exists rest,
       effects (stateOf (handleWebseedPieceResult t msg))
       = effects t ++ SpeedUpdate n :: rest
       /\ (rest = []
           \/ rest = [Suspend PieceMessagesC; Suspend WebseedPieceResultC;
                      GoPieceWriter {| pwPiece := Index msg; pwSource := Downloader msg;
                                       pwBuffer := MsgBuffer msg |}]).
Proof.
  intros He Hp n. destruct (Writing piece) eqn:Hw.
  - rewrite (handle_writing t msg piece He Hp Hw). cbn.
    split; [reflexivity|]. exists []. split; [reflexivity|now left].
  - rewrite (handle_idle t msg piece He Hp Hw). cbn.
    split; [reflexivity|]. eexists. split; [|now right].
    now rewrite <- !app_assoc.
Qed.

Lemma bytesDownloaded_counted_before_writer_witness :
  BytesDownloaded (stateOf (handleWebseedPieceResult idle1 okResult)) = 16384.
Proof.
  destruct (bytesDownloaded_counted_before_writer idle1 okResult {| Writing := false |}
              eq_refl eq_refl) as [H _].
  rewrite H. reflexivity.
Defined.

End CoordinatorProofs.

Module RainProofs.

Import Rain.
Local Open Scope Z_scope.

(** *** The clock and the deadline *)

Lemma arrival_app t l1 l2 : arrival t (l1 ++ l2) = arrival (arrival t l1) l2.
Proof. unfold arrival. apply foldl_app. Qed.

Lemma arrival_ge t l : t <= arrival t l.
Proof.
  revert t. induction l as [|p l IH]; intros t; cbn.
  - lia.
  - etransitivity; [|apply IH]. lia.
Qed.

Lemma arrival_arrivingAt t0 t bs : t <= t0 -> arrival t0 (arrivingAt t bs) = t0.
Proof.
  intros Ht. induction bs as [|b bs IH]; cbn; [reflexivity|].
  unfold arrival in IH. rewrite Z.max_l by lia. exact IH.
Qed.

Lemma expired_mono c t t' : t <= t' -> expired c t' = false -> expired c t = false.
Proof.
  unfold expired. destruct (deadline c) as [d|]; [|reflexivity].
  rewrite !bool_decide_eq_false. lia.
Qed.

Lemma expired_false_lt c d t : deadline c = Some d -> expired c t = false -> t < d.
Proof.
  unfold expired. intros ->. rewrite bool_decide_eq_false. lia.
Qed.

Lemma after_nil w : after [] (incoming (conn w)) w = w.
Proof. destruct w as [[] ? ? ?]. reflexivity. Qed.

Lemma after_after p1 p2 r1 r2 w :
  after p2 r2 (after p1 r1 w) = after (p1 ++ p2) r2 w.
Proof. unfold after. cbn. now rewrite arrival_app. Qed.

Lemma expired_after p r w p' :
  expired (conn (after p r w)) (arrival (now (after p r w)) p')
  = expired (conn w) (arrival (now w) (p ++ p')).
Proof. rewrite arrival_app. reflexivity. Qed.

(** *** Reading *)

Lemma connRead1_ok w t b rest :
  closed (conn w) = false ->
  incoming (conn w) = (t, b) :: rest ->
  expired (conn w) (arrival (now w) [(t, b)]) = false ->
  connRead1 w = Ok b (after [(t, b)] rest w).
Proof.
  intros Hc Hi He. unfold connRead1. rewrite Hc, Hi.
  rewrite (expired_mono _ (now w) _ (arrival_ge _ [(t, b)]) He).
  cbn in He. now rewrite He.
Qed.

Lemma connRead1_inv w b w' :
  connRead1 w = Ok b w' ->
  exists t rest,
    incoming (conn w) = (t, b) :: rest
    /\ closed (conn w) = false
    /\ expired (conn w) (arrival (now w) [(t, b)]) = false
    /\ w' = after [(t, b)] rest w.
Proof.
  unfold connRead1. destruct (closed (conn w)) eqn:Hc; [discriminate|].
  destruct (expired (conn w) (now w)); [discriminate|].
  destruct (incoming (conn w)) as [|[t b'] rest] eqn:Hi.
  - destruct (peerCloses (conn w)) as [tc|].
    + destruct (expired _ _); discriminate.
    + destruct (deadline (conn w)); discriminate.
  - destruct (expired (conn w) (Z.max (now w) t)) eqn:He; [discriminate|].
    intros [= <- <-]. exists t, rest. repeat split; assumption.
Qed.

Lemma readLoop_ok k : forall acc w pre rest,
  closed (conn w) = false ->
  incoming (conn w) = pre ++ rest ->
  length pre = k ->
  expired (conn w) (arrival (now w) pre) = false ->
  readLoop k acc w = Ok (acc ++ pre.*2) (after pre rest w).
Proof.
  induction k as [|k IH]; intros acc w pre rest Hc Hi Hl He.
  - destruct pre; [|discriminate]. cbn in *.
    rewrite app_nil_r, <- Hi, after_nil. reflexivity.
  - destruct pre as [|[t b] pre]; [discriminate|]. cbn [readLoop].
    rewrite (connRead1_ok w t b (pre ++ rest) Hc Hi).
    2:{ eapply expired_mono; [|exact He].
        change ((t, b) :: pre) with ([(t, b)] ++ pre).
        rewrite arrival_app. apply arrival_ge. }
    rewrite (IH (acc ++ [b]) _ pre rest).
    + rewrite after_after. cbn. now rewrite <- app_assoc.
    + exact Hc.
    + reflexivity.
    + cbn in Hl. congruence.
    + exact He.
Qed.

Lemma readLoop_inv k : forall acc w bs w',
  readLoop k acc w = Ok bs w' ->
  exists pre rest,
    incoming (conn w) = pre ++ rest
    /\ length pre = k
    /\ bs = acc ++ pre.*2
    /\ w' = after pre rest w
    /\ (k <> O -> closed (conn w) = false
                  /\ expired (conn w) (arrival (now w) pre) = false).
Proof.
  induction k as [|k IH]; intros acc w bs w' H.
  - cbn in H. injection H as <- <-. exists [], (incoming (conn w)).
    rewrite after_nil, app_nil_r. repeat split; congruence.
  - cbn [readLoop] in H. destruct (connRead1 w) as [b w1|e w1|w1] eqn:Hr;
      try discriminate.
    apply connRead1_inv in Hr as (t & rest1 & Hi & Hc & He & ->).
    apply IH in H as (pre & rest & Hi' & Hl & -> & -> & Hk).
    cbn in Hi'. subst rest1.
    exists ((t, b) :: pre), rest. rewrite after_after. cbn.
    repeat split; try congruence.
    + now rewrite <- app_assoc.
    + destruct k as [|k'].
      * destruct pre; [|discriminate]. exact He.
      * destruct Hk as [_ Hk]; [discriminate|]. exact Hk.
Qed.

Lemma arrival_prefix t l1 l2 : arrival t l1 <= arrival t (l1 ++ l2).
Proof. rewrite arrival_app. apply arrival_ge. Qed.

Lemma readFull_ok k w pre rest :
  closed (conn w) = false ->
  incoming (conn w) = pre ++ rest ->
  length pre = k ->
  expired (conn w) (arrival (now w) pre) = false ->
  readFull k w = Ok (pre.*2) (after pre rest w).
Proof.
  intros Hc Hi Hl He. unfold readFull.
  now rewrite (readLoop_ok k [] w pre rest Hc Hi Hl He).
Qed.

Lemma copyNDiscard_ok k w pre rest :
  closed (conn w) = false ->
  incoming (conn w) = pre ++ rest ->
  length pre = k ->
  expired (conn w) (arrival (now w) pre) = false ->
  copyNDiscard k w = Ok tt (after pre rest w).
Proof.
  intros Hc Hi Hl He. unfold copyNDiscard.
  now rewrite (readLoop_ok k [] w pre rest Hc Hi Hl He).
Qed.

Lemma readFull_inv k w bs w' :
  readFull k w = Ok bs w' -> readLoop k [] w = Ok bs w'.
Proof.
  unfold readFull. destruct (readLoop k [] w) as [a w1|e w1|w1]; try easy.
  destruct e; try easy. now destruct (bool_decide _).
Qed.

Lemma copyNDiscard_inv k w u w' :
  copyNDiscard k w = Ok u w' -> exists bs, readLoop k [] w = Ok bs w'.
Proof.
  unfold copyNDiscard. destruct (readLoop k [] w) as [a w1|e w1|w1]; try easy.
  intros [= _ <-]. now exists a.
Qed.

(** *** What reading leaves alone *)

Lemma readOnly_refl w : readOnly w w.
Proof.
  repeat split; try lia. exists (incoming (conn w)). now destruct (conn w).
Qed.

Lemma readOnly_trans w1 w2 w3 : readOnly w1 w2 -> readOnly w2 w3 -> readOnly w1 w3.
Proof.
  intros ([l1 H1] & Hq1 & Hl1 & Hn1) ([l2 H2] & Hq2 & Hl2 & Hn2).
  repeat split; try congruence; try lia.
  exists l2. rewrite H2, H1. reflexivity.
Qed.

Lemma readOnly_atDeadline w : readOnly w (atDeadline w).
Proof.
  unfold atDeadline. destruct (deadline (conn w)) as [d|]; [|apply readOnly_refl].
  repeat split; cbn; try lia. exists (incoming (conn w)). now destruct (conn w).
Qed.

Lemma connRead1_readOnly w : readOnly w (worldOf (connRead1 w)).
Proof.
  destruct w as [[inc pc we dl snt cl] t q lg].
  unfold connRead1, atDeadline, expired; cbn.
  repeat match goal with
         | |- context [match ?x with _ => _ end] => destruct x
         end;
    cbn; (split; [eexists; reflexivity|]); cbn; repeat split; lia.
Qed.

Lemma readLoop_readOnly k : forall acc w, readOnly w (worldOf (readLoop k acc w)).
Proof.
  induction k as [|k IH]; intros acc w; cbn [readLoop].
  - apply readOnly_refl.
  - pose proof (connRead1_readOnly w) as H.
    destruct (connRead1 w) as [b w1|e w1|w1]; cbn in *; try exact H.
    eapply readOnly_trans; [exact H|apply IH].
Qed.

Lemma readFull_readOnly k w : readOnly w (worldOf (readFull k w)).
Proof.
  pose proof (readLoop_readOnly k [] w) as H. unfold readFull.
  destruct (readLoop k [] w) as [a w1|e w1|w1]; cbn in *; try exact H.
  destruct e; try exact H. now destruct (bool_decide _).
Qed.

Lemma copyNDiscard_readOnly k w : readOnly w (worldOf (copyNDiscard k w)).
Proof.
  pose proof (readLoop_readOnly k [] w) as H. unfold copyNDiscard.
  now destruct (readLoop k [] w).
Qed.

(** With a deadline set, a read always returns. *)
Lemma connRead1_returns w :
  deadline (conn w) <> None -> returned (connRead1 w) = true.
Proof.
  intros Hd. unfold connRead1.
  repeat match goal with
         | |- context [match ?x with _ => _ end] => destruct x eqn:?
         end; try reflexivity.
  congruence.
Qed.

Lemma readLoop_returns k : forall acc w,
  deadline (conn w) <> None -> returned (readLoop k acc w) = true.
Proof.
  induction k as [|k IH]; intros acc w Hd; cbn [readLoop]; [reflexivity|].
  pose proof (connRead1_returns w Hd) as Hr.
  pose proof (connRead1_readOnly w) as ([l Hl] & _).
  destruct (connRead1 w) as [b w1|e w1|w1]; cbn in *; try easy.
  apply IH. rewrite Hl. exact Hd.
Qed.

Lemma readFull_returns k w :
  deadline (conn w) <> None -> returned (readFull k w) = true.
Proof.
  intros Hd. pose proof (readLoop_returns k [] w Hd) as H. unfold readFull.
  destruct (readLoop k [] w) as [a w1|e w1|w1]; try easy.
  destruct e; try easy. now destruct (bool_decide _).
Qed.

Lemma copyNDiscard_returns k w :
  deadline (conn w) <> None -> returned (copyNDiscard k w) = true.
Proof.
  intros Hd. pose proof (readLoop_returns k [] w Hd) as H. unfold copyNDiscard.
  now destruct (readLoop k [] w).
Qed.

(** *** Sequencing *)

Lemma bind_ok {A B} (m : IO A) (k : A -> IO B) w a w1 :
  m w = Ok a w1 -> bind m k w = k a w1.
Proof. unfold bind. now intros ->. Qed.

Lemma bind_inv {A B} (m : IO A) (k : A -> IO B) w b w2 :
  bind m k w = Ok b w2 -> exists a w1, m w = Ok a w1 /\ k a w1 = Ok b w2.
Proof.
  unfold bind. destruct (m w) as [a w1|e w1|w1]; try easy. intros H. now exists a, w1.
Qed.

Lemma bind_returns {A B} (m : IO A) (k : A -> IO B) w :
  returned (m w) = true ->
  (forall a w1, m w = Ok a w1 -> returned (k a w1) = true) ->
  returned (bind m k w) = true.
Proof.
  unfold bind. destruct (m w) as [a w1|e w1|w1]; intros Hm Hk; try easy.
  now apply Hk.
Qed.

Lemma bind_worldOf {A B} (R : World -> World -> Prop) (m : IO A) (k : A -> IO B) w :
  (forall w1 w2 w3, R w1 w2 -> R w2 w3 -> R w1 w3) ->
  R w (worldOf (m w)) ->
  (forall a w1, m w = Ok a w1 -> R w1 (worldOf (k a w1))) ->
  R w (worldOf (bind m k w)).
Proof.
  intros Htrans Hm Hk. unfold bind.
  destruct (m w) as [a w1|e w1|w1]; cbn in *; try exact Hm.
  eapply Htrans; [exact Hm|]. now apply Hk.
Qed.

Lemma lineKept_refl w : lineKept w w.
Proof.
  repeat split; try lia. exists (incoming (conn w)). now destruct (conn w).
Qed.

Lemma lineKept_trans w1 w2 w3 : lineKept w1 w2 -> lineKept w2 w3 -> lineKept w1 w3.
Proof.
  intros ([l1 H1] & Hl1 & Hn1) ([l2 H2] & Hl2 & Hn2).
  repeat split; try congruence; try lia.
  exists l2. rewrite H2, H1. reflexivity.
Qed.

Lemma readOnly_lineKept w w' : readOnly w w' -> lineKept w w'.
Proof. intros (H1 & _ & H2 & H3). now repeat split. Qed.

Lemma chanSend_lineKept ih w : lineKept w (worldOf (chanSend ih w)).
Proof.
  unfold chanSend. destruct (infoHashC w); cbn; [|apply lineKept_refl].
  repeat split; cbn; try lia. exists (incoming (conn w)). now destruct (conn w).
Qed.

(** [readHandShake] touches the unread bytes, the clock and the channel,
    and nothing else: in particular it sends nothing and keeps the deadline. *)
Lemma readHandShake_lineKept notify w : lineKept w (worldOf (readHandShake notify w)).
Proof.
  unfold readHandShake.
  repeat first
    [ apply lineKept_refl
    | apply chanSend_lineKept
    | apply readOnly_lineKept;
      first [apply connRead1_readOnly | apply readFull_readOnly
            | apply copyNDiscard_readOnly]
    | apply bind_worldOf; [exact lineKept_trans| |intros ? ? _]
    | match goal with
      | |- context [if ?b then _ else _] => destruct b
      end ].
Qed.

Lemma readOnly_of_ok {A} (m : IO A) w a w1 :
  readOnly w (worldOf (m w)) -> m w = Ok a w1 -> readOnly w w1.
Proof. intros H Hm. now rewrite Hm in H. Qed.

Lemma readOnly_deadline w w' : readOnly w w' -> deadline (conn w') = deadline (conn w).
Proof. intros ([l ->] & _). reflexivity. Qed.

(** With a deadline set and an empty channel, [readHandShake] returns. *)
Lemma readHandShake_returns w :
  deadline (conn w) <> None -> infoHashC w = [] ->
  returned (readHandShake true w) = true.
Proof.
  intros Hd Hq. unfold readHandShake.
  apply bind_returns; [now apply connRead1_returns|].
  intros b w1 H1. apply (readOnly_of_ok _ _ _ _ (connRead1_readOnly w)) in H1.
  destruct (negb _); [reflexivity|].
  assert (Hd1 : deadline (conn w1) <> None) by now rewrite (readOnly_deadline _ _ H1).
  apply bind_returns; [now apply readFull_returns|].
  intros buf w2 H2. apply (readOnly_of_ok _ _ _ _ (readFull_readOnly _ w1)) in H2.
  destruct (negb _); [reflexivity|].
  assert (Hd2 : deadline (conn w2) <> None) by now rewrite (readOnly_deadline _ _ H2).
  apply bind_returns; [now apply copyNDiscard_returns|].
  intros u w3 H3. apply (readOnly_of_ok _ _ _ _ (copyNDiscard_readOnly _ w2)) in H3.
  assert (Hd3 : deadline (conn w3) <> None) by now rewrite (readOnly_deadline _ _ H3).
  apply bind_returns; [now apply readFull_returns|].
  intros ih w4 H4. apply (readOnly_of_ok _ _ _ _ (readFull_readOnly _ w3)) in H4.
  assert (Hd4 : deadline (conn w4) <> None) by now rewrite (readOnly_deadline _ _ H4).
  assert (Hq4 : infoHashC w4 = []).
  { destruct H1 as (_ & Hq1 & _), H2 as (_ & Hq2 & _), H3 as (_ & Hq3 & _),
      H4 as (_ & Hq4 & _). congruence. }
  apply bind_returns.
  - unfold chanSend. now rewrite Hq4.
  - intros u' w5. unfold chanSend. rewrite Hq4. intros [= _ <-].
    now apply readFull_returns.
Qed.

Lemma to_N_x13 b : b <> x13 -> N.eqb (Byte.to_N b) bitTorrent10pstrLen = false.
Proof. intros Hb. destruct b; try reflexivity. congruence. Qed.

(** A first byte other than 19 is refused as soon as it is read. *)
Lemma readHandShake_bad_pstrlen notify w t b rest :
  closed (conn w) = false ->
  incoming (conn w) = (t, b) :: rest ->
  expired (conn w) (arrival (now w) [(t, b)]) = false ->
  b <> x13 ->
  readHandShake notify w
  = Fail (ErrorsNew "unexpected pstrlen") (after [(t, b)] rest w).
Proof.
  intros Hc Hi He Hb. unfold readHandShake.
  rewrite (bind_ok _ _ _ _ _ (connRead1_ok w t b rest Hc Hi He)).
  now rewrite (to_N_x13 b Hb).
Qed.

(** A protocol string other than "BitTorrent protocol" is refused after its
    19 bytes. *)
Lemma readHandShake_bad_pstr notify w t pstr rest :
  closed (conn w) = false ->
  incoming (conn w) = (t, x13) :: pstr ++ rest ->
  length pstr = 19%nat ->
  expired (conn w) (arrival (now w) ((t, x13) :: pstr)) = false ->
  pstr.*2 <> bitTorrent10pstr ->
  readHandShake notify w
  = Fail (ErrorsNew "unexpected pstr") (after ((t, x13) :: pstr) rest w).
Proof.
  intros Hc Hi Hl He Hp. unfold readHandShake.
  assert (He1 : expired (conn w) (arrival (now w) [(t, x13)]) = false).
  { eapply expired_mono; [|exact He]. apply (arrival_prefix _ [(t, x13)] pstr). }
  rewrite (bind_ok _ _ _ _ _ (connRead1_ok w t x13 (pstr ++ rest) Hc Hi He1)).
  change (negb (Byte.to_N x13 =? bitTorrent10pstrLen)%N) with false. cbn match.
  rewrite (bind_ok _ _ _ _ _
             (readFull_ok _ (after [(t, x13)] (pstr ++ rest) w) pstr rest
                Hc eq_refl Hl He)).
  rewrite bool_decide_eq_false_2 by exact Hp. cbn. now rewrite after_after.
Qed.

Lemma chanSend_ok ih w :
  infoHashC w = [] -> chanSend ih w = Ok tt (set_infoHashC [(now w, ih)] w).
Proof. unfold chanSend. now intros ->. Qed.

Lemma bitTorrent10pstr_length : length bitTorrent10pstr = 19%nat.
Proof. reflexivity. Qed.

(** A stream whose bytes are a handshake splits into the five fields. *)
Lemma handshake_split (hs : list (Z * byte)) rsv ih pid :
  hs.*2 = handshakeBytes rsv ih pid ->
  exists t p2 p3 p4 p5,
    hs = (t, x13) :: p2 ++ p3 ++ p4 ++ p5
    /\ p2.*2 = bitTorrent10pstr /\ p3.*2 = rsv /\ p4.*2 = ih /\ p5.*2 = pid.
Proof.
  unfold handshakeBytes. intros H.
  apply fmap_app_inv in H as (p1 & r1 & H1 & H & ->). symmetry in H.
  apply fmap_app_inv in H as (p2 & r2 & H2 & H & ->). symmetry in H.
  apply fmap_app_inv in H as (p3 & r3 & H3 & H & ->). symmetry in H.
  apply fmap_app_inv in H as (p4 & p5 & H4 & H5 & ->).
  destruct p1 as [|[t b] [|? ?]]; try discriminate. injection H1 as <-.
  exists t, p2, p3, p4, p5. now repeat split.
Qed.

(** A complete handshake that arrives before the deadline is accepted: the
    peer id is returned and the info hash is put on the channel at the time
    its last byte was read. The world after does not mention the reserved
    bytes. *)
Lemma readHandShake_ok w hs rest rsv ih pid :
  closed (conn w) = false ->
  incoming (conn w) = hs ++ rest ->
  hs.*2 = handshakeBytes rsv ih pid ->
  length rsv = 8%nat -> length ih = 20%nat -> length pid = 20%nat ->
  expired (conn w) (arrival (now w) hs) = false ->
  infoHashC w = [] ->
  readHandShake true w
  = Ok pid (set_infoHashC [(arrival (now w) (take 48 hs), ih)] (after hs rest w)).
Proof.
  intros Hc Hi Hhs Hr Hih Hpid He Hq.
  destruct (handshake_split hs rsv ih pid Hhs)
    as (t & p2 & p3 & p4 & p5 & -> & H2 & H3 & H4 & H5).
  assert (L2 : length p2 = 19%nat)
    by now rewrite <- (length_fmap snd), H2.
  assert (L3 : length p3 = 8%nat) by now rewrite <- (length_fmap snd), H3.
  assert (L4 : length p4 = 20%nat) by now rewrite <- (length_fmap snd), H4.
  assert (L5 : length p5 = 20%nat) by now rewrite <- (length_fmap snd), H5.
  set (q1 := [(t, x13)]).
  assert (E1 : expired (conn w) (arrival (now w) q1) = false).
  { eapply expired_mono; [|exact He].
    apply (arrival_prefix _ q1 (p2 ++ p3 ++ p4 ++ p5)). }
  assert (E2 : expired (conn w) (arrival (now w) (q1 ++ p2)) = false).
  { eapply expired_mono; [|exact He].
    change ((t, x13) :: p2 ++ p3 ++ p4 ++ p5) with (q1 ++ p2 ++ p3 ++ p4 ++ p5).
    rewrite (app_assoc q1). apply arrival_prefix. }
  assert (E3 : expired (conn w) (arrival (now w) ((q1 ++ p2) ++ p3)) = false).
  { eapply expired_mono; [|exact He].
    change ((t, x13) :: p2 ++ p3 ++ p4 ++ p5) with (q1 ++ p2 ++ p3 ++ p4 ++ p5).
    rewrite (app_assoc q1), (app_assoc (q1 ++ p2)). apply arrival_prefix. }
  assert (E4 : expired (conn w) (arrival (now w) (((q1 ++ p2) ++ p3) ++ p4)) = false).
  { eapply expired_mono; [|exact He].
    change ((t, x13) :: p2 ++ p3 ++ p4 ++ p5) with (q1 ++ p2 ++ p3 ++ p4 ++ p5).
    rewrite (app_assoc q1), (app_assoc (q1 ++ p2)), (app_assoc ((q1 ++ p2) ++ p3)).
    apply arrival_prefix. }
  assert (E5 : expired (conn w) (arrival (now w) ((((q1 ++ p2) ++ p3) ++ p4) ++ p5))
               = false).
  { rewrite <- !app_assoc. exact He. }
  assert (E5' : expired (conn w)
                  (arrival (arrival (now w) (((q1 ++ p2) ++ p3) ++ p4)) p5) = false)
    by now rewrite <- arrival_app.
  assert (Hi' : incoming (conn w) = (t, x13) :: p2 ++ p3 ++ p4 ++ p5 ++ rest).
  { rewrite Hi. cbn. now rewrite <- !app_assoc. }
  unfold readHandShake.
  rewrite (bind_ok _ _ _ _ _ (connRead1_ok w t x13 _ Hc Hi' E1)).
  change (negb (Byte.to_N x13 =? bitTorrent10pstrLen)%N) with false. cbn match.
  rewrite (bind_ok _ _ _ _ _
             (readFull_ok _ (after q1 (p2 ++ p3 ++ p4 ++ p5 ++ rest) w)
                p2 (p3 ++ p4 ++ p5 ++ rest) Hc eq_refl L2
                ltac:(rewrite expired_after; exact E2))).
  rewrite H2, bool_decide_eq_true_2 by reflexivity. cbn match. cbn [negb].
  rewrite after_after.
  rewrite (bind_ok _ _ _ _ _
             (copyNDiscard_ok 8 (after (q1 ++ p2) (p3 ++ p4 ++ p5 ++ rest) w)
                p3 (p4 ++ p5 ++ rest) Hc eq_refl L3
                ltac:(rewrite expired_after; exact E3))).
  rewrite after_after.
  rewrite (bind_ok _ _ _ _ _
             (readFull_ok 20 (after ((q1 ++ p2) ++ p3) (p4 ++ p5 ++ rest) w)
                p4 (p5 ++ rest) Hc eq_refl L4
                ltac:(rewrite expired_after; exact E4))).
  rewrite after_after.
  rewrite (bind_ok _ _ _ _ _
             (chanSend_ok p4.*2 (after (((q1 ++ p2) ++ p3) ++ p4) (p5 ++ rest) w) Hq)).
  rewrite (readFull_ok 20
             (set_infoHashC _ (after (((q1 ++ p2) ++ p3) ++ p4) (p5 ++ rest) w))
             p5 rest Hc eq_refl L5 E5').
  rewrite H4, H5. f_equal.
  assert (T : take 48 ((t, x13) :: p2 ++ p3 ++ p4 ++ p5) = ((q1 ++ p2) ++ p3) ++ p4).
  { change ((t, x13) :: p2 ++ p3 ++ p4 ++ p5) with (q1 ++ p2 ++ p3 ++ p4 ++ p5).
    rewrite (app_assoc q1), (app_assoc (q1 ++ p2)), (app_assoc ((q1 ++ p2) ++ p3)).
    apply take_app_length'. rewrite !length_app, L2, L3, L4. reflexivity. }
  rewrite T. unfold after, set_infoHashC, set_now, set_conn. cbn.
  rewrite <- !arrival_app, <- !app_assoc. reflexivity.
Qed.

Lemma to_N_x13_inv b : N.eqb (Byte.to_N b) bitTorrent10pstrLen = true -> b = x13.
Proof. destruct b; try discriminate. reflexivity. Qed.

(** Conversely, when [readHandShake] returns a peer id it has read a whole
    handshake before the deadline and put its info hash on the channel. *)
Lemma readHandShake_inv w pid w' :
  readHandShake true w = Ok pid w' ->
  exists hs rest rsv ih,
    incoming (conn w) = hs ++ rest
    /\ hs.*2 = handshakeBytes rsv ih pid
    /\ length rsv = 8%nat /\ length ih = 20%nat /\ length pid = 20%nat
    /\ closed (conn w) = false
    /\ expired (conn w) (arrival (now w) hs) = false
    /\ infoHashC w = []
    /\ w' = set_infoHashC [(arrival (now w) (take 48 hs), ih)] (after hs rest w).
Proof.
  unfold readHandShake. intros H.
  apply bind_inv in H as (b & w1 & H1 & H).
  apply connRead1_inv in H1 as (t & r1 & Hi1 & Hc & He1 & ->).
  destruct (N.eqb (Byte.to_N b) bitTorrent10pstrLen) eqn:Hb; [|discriminate].
  apply to_N_x13_inv in Hb as ->. cbn [negb] in H.
  apply bind_inv in H as (buf & w2 & H2 & H).
  apply readFull_inv, readLoop_inv in H2
    as (p2 & r2 & Hi2 & L2 & -> & -> & Hk2).
  destruct (bool_decide (_ = bitTorrent10pstr)) eqn:Hp; [|discriminate].
  apply bool_decide_eq_true_1 in Hp. cbn [negb] in H.
  apply bind_inv in H as (u & w3 & H3 & H).
  apply copyNDiscard_inv in H3 as (bs3 & H3).
  apply readLoop_inv in H3 as (p3 & r3 & Hi3 & L3 & _ & -> & Hk3).
  apply bind_inv in H as (ih & w4 & H4 & H).
  apply readFull_inv, readLoop_inv in H4 as (p4 & r4 & Hi4 & L4 & -> & -> & Hk4).
  apply bind_inv in H as (u' & w5 & H5 & H).
  rewrite !after_after in *.
  unfold chanSend in H5.
  destruct (infoHashC (after _ r4 w)) eqn:Hq; [|discriminate].
  injection H5 as _ <-.
  apply readFull_inv, readLoop_inv in H as (p5 & rest & Hi5 & L5 & -> & -> & Hk5).
  cbn in Hi2, Hi3, Hi4, Hi5, Hq. subst r1 r2 r3 r4.
  exists ((t, x13) :: p2 ++ p3 ++ p4 ++ p5), rest, p3.*2, p4.*2.
  assert (T : take 48 ((t, x13) :: p2 ++ p3 ++ p4 ++ p5)
              = ((([(t, x13)] ++ p2) ++ p3) ++ p4)).
  { change ((t, x13) :: p2 ++ p3 ++ p4 ++ p5) with ([(t, x13)] ++ p2 ++ p3 ++ p4 ++ p5).
    rewrite (app_assoc [(t, x13)]), (app_assoc ([(t, x13)] ++ p2)),
      (app_assoc (([(t, x13)] ++ p2) ++ p3)).
    apply take_app_length'. rewrite !length_app, L2, L3, L4. reflexivity. }
  repeat split.
  - rewrite Hi1. cbn. now rewrite <- !app_assoc.
  - unfold handshakeBytes. cbn. rewrite !fmap_app. cbn in Hp. now rewrite Hp.
  - now rewrite length_fmap.
  - now rewrite length_fmap.
  - cbn. now rewrite length_fmap.
  - exact Hc.
  - destruct Hk5 as [_ Hk5]; [discriminate|]. cbn in Hk5.
    unfold expired in *. cbn in Hk5.
    change ((t, x13) :: p2 ++ p3 ++ p4 ++ p5) with ([(t, x13)] ++ p2 ++ p3 ++ p4 ++ p5).
    rewrite !arrival_app in *. exact Hk5.
  - exact Hq.
  - rewrite T. unfold after, set_infoHashC, set_now, set_conn. cbn.
    rewrite <- !arrival_app, <- !app_assoc. reflexivity.
Qed.

(** *** The two connection handlers *)

#[local] Arguments handshakeBytes : simpl never.

Lemma sendHandShake_bytes r ih w :
  sendHandShake r ih w = connWrite (handshakeBytes (replicate 8 x00) ih (peerID r)) w.
Proof. reflexivity. Qed.

Lemma connWrite_inv bs w u w' :
  connWrite bs w = Ok u w' -> w' = set_conn (set_sent (sent (conn w) ++ bs) (conn w)) w.
Proof.
  unfold connWrite. destruct (closed _); [discriminate|].
  destruct (expired _ _); [discriminate|].
  destruct (writeError _); [discriminate|]. now intros [= _ <-].
Qed.

Lemma connWrite_fail bs w e w' : connWrite bs w = Fail e w' -> w' = w.
Proof.
  unfold connWrite. destruct (closed _); [now intros [= _ <-]|].
  destruct (expired _ _); [now intros [= _ <-]|].
  destruct (writeError _); [now intros [= _ <-]|discriminate].
Qed.

Lemma connWrite_not_blocked bs w w' : connWrite bs w <> Blocked w'.
Proof.
  unfold connWrite. destruct (closed _); [discriminate|].
  destruct (expired _ _); [discriminate|].
  destruct (writeError _); discriminate.
Qed.

Lemma lineKept_sent w w' : lineKept w w' -> sent (conn w') = sent (conn w).
Proof. intros ([l ->] & _). reflexivity. Qed.

Lemma SetDeadline_sent d w : sent (conn (worldOf (SetDeadline d w))) = sent (conn w).
Proof. unfold SetDeadline. now destruct (closed _). Qed.

(** The inbound handler writes nothing, or one handshake and nothing else. *)
Lemma servePeerConn_sent r b w :
  sentBy (servePeerConn r b w) = sent (conn w)
  \/ exists ih,
       sentBy (servePeerConn r b w)
       = sent (conn w) ++ handshakeBytes (replicate 8 x00) ih (peerID r).
Proof.
  unfold servePeerConn, SetDeadline.
  destruct (closed (conn w)) eqn:Hc; [now left|].
  set (w1 := set_infoHashC [] _).
  pose proof (lineKept_sent _ _ (readHandShake_lineKept true w1)) as Hs.
  change (sent (conn w1)) with (sent (conn w)) in Hs.
  destruct (infoHashC (worldOf (readHandShake true w1))) as [|[t ih] q].
  { left. destruct (readHandShake true w1); cbn in *; exact Hs. }
  destruct (_ && _); [now left|].
  rewrite sendHandShake_bytes.
  destruct (connWrite _ _) as [u w3|e w3|w3] eqn:Hw.
  - right. exists ih. apply connWrite_inv in Hw. subst w3.
    destruct (readHandShake true w1); cbn in *; try now rewrite Hs.
    unfold communicateWithPeer. rewrite SetDeadline_sent. cbn. now rewrite Hs.
  - left. apply connWrite_fail in Hw. subst w3. exact Hs.
  - now apply connWrite_not_blocked in Hw.
Qed.

(** The outbound handler likewise, with the info hash of its torrent. *)
Lemma connectToPeer_sent r d c t0 :
  sentBy (connectToPeer r d (inr c) t0) = sent c
  \/ sentBy (connectToPeer r d (inr c) t0)
     = sent c ++ handshakeBytes (replicate 8 x00) (InfoHash (dTorrentFile d)) (peerID r).
Proof.
  unfold connectToPeer. rewrite sendHandShake_bytes.
  destruct (connWrite _ _) as [u w1|e w1|w1] eqn:Hw.
  - right. apply connWrite_inv in Hw. subst w1.
    set (w1 := set_conn _ _).
    pose proof (lineKept_sent _ _ (readHandShake_lineKept true w1)) as Hs.
    destruct (readHandShake true w1) as [pid w2|e w2|w2]; cbn in *; try exact Hs.
    destruct (infoHashC w2) as [|[t ih] q]; [exact Hs|].
    destruct (bool_decide _); cbn; [exact Hs|].
    unfold communicateWithPeer. now rewrite SetDeadline_sent.
  - left. apply connWrite_fail in Hw. now subst w1.
  - now apply connWrite_not_blocked in Hw.
Qed.

Lemma SetDeadline_now d w : now (worldOf (SetDeadline d w)) = now w.
Proof. unfold SetDeadline. now destruct (closed _). Qed.

(** The inbound path: whatever the peer does and whichever case the
    [select] takes, [servePeerConn] returns with the connection closed, and
    it reaches [communicateWithPeer] only if the whole handshake was read
    less than a minute after the handler started. *)
Lemma servePeerConn_closes_within_minute r b w :
  exists c w',
    servePeerConn r b w = Done c w'
    /\ closed (conn w') = true
    /\ (c = true -> now w' < now w + Minute).
Proof.
  unfold servePeerConn, SetDeadline.
  destruct (closed (conn w)) eqn:Hc.
  { eexists _, _. split; [reflexivity|]. split; [reflexivity|discriminate]. }
  set (w1 := set_infoHashC [] _).
  assert (Hret : returned (readHandShake true w1) = true)
    by (apply readHandShake_returns; [discriminate|reflexivity]).
  destruct (readHandShake true w1) as [pid w2|e w2|w2] eqn:Hr;
    cbn [worldOf returned] in *; [| |discriminate Hret].
  - apply readHandShake_inv in Hr
      as (hs & rest & rsv & ih & _ & _ & _ & _ & _ & _ & He & _ & ->).
    cbn [infoHashC set_infoHashC].
    destruct b; cbn [andb].
    { eexists _, _. split; [reflexivity|]. split; [reflexivity|discriminate]. }
    rewrite sendHandShake_bytes.
    destruct (connWrite _ _) as [u w3|e w3|w3] eqn:Hw.
    + apply connWrite_inv in Hw. subst w3.
      eexists _, _. split; [reflexivity|]. split; [reflexivity|].
      intros _. cbn [Close now set_conn]. unfold communicateWithPeer.
      rewrite SetDeadline_now. cbn.
      exact (expired_false_lt (conn w1) _ _ eq_refl He).
    + eexists _, _. split; [reflexivity|]. split; [reflexivity|discriminate].
    + now apply connWrite_not_blocked in Hw.
  - destruct (infoHashC w2) as [|[t ih] q].
    { eexists _, _. split; [reflexivity|]. split; [reflexivity|discriminate]. }
    destruct b; cbn [andb].
    { eexists _, _. split; [reflexivity|]. split; [reflexivity|discriminate]. }
    rewrite sendHandShake_bytes.
    destruct (connWrite _ _) as [u w3|e' w3|w3] eqn:Hw.
    + eexists _, _. split; [reflexivity|]. split; [reflexivity|discriminate].
    + eexists _, _. split; [reflexivity|]. split; [reflexivity|discriminate].
    + now apply connWrite_not_blocked in Hw.
Qed.

(** C5, evaluated at a failing input: an outbound connection to a peer that
    accepts the connection and then stays silent. [connectToPeer] sends its
    handshake and blocks in [readHandShake] for ever: no deadline was set on
    the connection, it is not closed, and the handler never returns. The
    inbound path sets the one-minute deadline
    ([servePeerConn_closes_within_minute]); the outbound path does not. *)
Lemma connectToPeer_silent_peer_hangs :
  connectToPeer rainX downloadA (inr silentPeer) 0
  = Hung {| conn := {| incoming := []; peerCloses := None; writeError := None;
                       deadline := None;
                       sent := handshakeBytes (replicate 8 x00) hashA peerX;
                       closed := false |};
            now := 0; infoHashC := []; logged := [] |}.
Proof. reflexivity. Qed.

(** The same peer on the inbound path is dropped when the minute is over. *)
Lemma servePeerConn_silent_peer_dropped :
  servePeerConn rainX false (startWorld silentPeer 0)
  = Done false
      {| conn := {| incoming := []; peerCloses := None; writeError := None;
                    deadline := Some Minute; sent := []; closed := true |};
         now := Minute; infoHashC := []; logged := [] |}.
Proof. reflexivity. Qed.

(** C6: the handshake that [sendHandShake] gives to the connection is the
    byte 19, the 19 bytes of "BitTorrent protocol", 8 reserved bytes (all
    zero), the info hash and the peer id, in that order (68 bytes for a
    20-byte hash and id), and both connection handlers send that or
    nothing. On the reading side, a first byte other than 19 makes
    [readHandShake] fail with "unexpected pstrlen" when that one byte has
    been read, and a protocol string other than "BitTorrent protocol" makes
    it fail with "unexpected pstr" when those 19 bytes have been read: the
    world after has every later byte unread and nothing on the channel. *)
Theorem handshake_format_and_rejection (r : Rain) (ih : list byte) (w : World) :
  closed (conn w) = false ->
  Byte.to_N x13 = 19%N
  /\ sendHandShake r ih w
     = connWrite ([x13] ++ bitTorrent10pstr ++ replicate 8 x00 ++ ih ++ peerID r) w
  /\ (forall w', sendHandShake r ih w = Ok tt w' ->
        sent (conn w')
        = sent (conn w) ++ [x13] ++ bitTorrent10pstr ++ replicate 8 x00 ++ ih ++ peerID r)
  /\ (length ih = 20%nat -> length (peerID r) = 20%nat ->
      length ([x13] ++ bitTorrent10pstr ++ replicate 8 x00 ++ ih ++ peerID r) = 68%nat)
  /\ (forall errCFirst,
        sentBy (servePeerConn r errCFirst w) = sent (conn w)
        \/ exists ih',
             sentBy (servePeerConn r errCFirst w)
             = sent (conn w) ++ handshakeBytes (replicate 8 x00) ih' (peerID r))
  /\ (forall d t0,
        sentBy (connectToPeer r d (inr (conn w)) t0) = sent (conn w)
        \/ sentBy (connectToPeer r d (inr (conn w)) t0)
           = sent (conn w)
             ++ handshakeBytes (replicate 8 x00) (InfoHash (dTorrentFile d)) (peerID r))
  /\ (forall notify t b rest,
        incoming (conn w) = (t, b) :: rest ->
        expired (conn w) (arrival (now w) [(t, b)]) = false ->
        b <> x13 ->
        readHandShake notify w
        = Fail (ErrorsNew "unexpected pstrlen") (after [(t, b)] rest w))
  /\ (forall notify t pstr rest,
        incoming (conn w) = (t, x13) :: pstr ++ rest ->
        length pstr = 19%nat ->
        expired (conn w) (arrival (now w) ((t, x13) :: pstr)) = false ->
        pstr.*2 <> bitTorrent10pstr ->
        readHandShake notify w
        = Fail (ErrorsNew "unexpected pstr") (after ((t, x13) :: pstr) rest w)).
Proof.
  intros Hc. split; [reflexivity|]. split; [reflexivity|]. split.
  { intros w' H. rewrite sendHandShake_bytes in H. apply connWrite_inv in H.
    now subst w'. }
  split.
  { intros H1 H2. rewrite !length_app, length_replicate, H1, H2. reflexivity. }
  split; [intros b; apply servePeerConn_sent|].
  split; [intros d t0; apply connectToPeer_sent|].
  split.
  - intros notify t b rest Hi He Hb. now apply readHandShake_bad_pstrlen.
  - intros notify t pstr rest Hi Hl He Hp. now apply readHandShake_bad_pstr.
Qed.

Lemma handshake_format_and_rejection_witness :
  sendHandShake rainX hashA (startWorld (freshConn (arrivingAt 5 [x14; x42]) None) 0)
  = connWrite ([x13] ++ bitTorrent10pstr ++ replicate 8 x00 ++ hashA ++ peerX)
      (startWorld (freshConn (arrivingAt 5 [x14; x42]) None) 0)
  /\ readHandShake true (startWorld (freshConn (arrivingAt 5 [x14; x42]) None) 0)
     = Fail (ErrorsNew "unexpected pstrlen")
         (startWorld (freshConn (arrivingAt 5 [x42]) None) 5).
Proof.
  destruct (handshake_format_and_rejection rainX hashA
              (startWorld (freshConn (arrivingAt 5 [x14; x42]) None) 0) eq_refl)
    as (_ & Hsend & _ & _ & _ & _ & Hlen & _).
  split; [exact Hsend|].
  now rewrite (Hlen true 5 x14 (arrivingAt 5 [x42]) eq_refl eq_refl).
Defined.

(** What the outbound path does check: [communicateWithPeer] is reached
    only when the peer has sent a whole handshake whose info hash is the
    torrent's; and when a whole handshake carries another info hash,
    [connectToPeer] logs "unexpected info_hash" and returns without
    [communicateWithPeer]. *)
Lemma connectToPeer_checks_infoHash (r : Rain) (d : download) (c : Conn) (t0 : Z) :
  (forall w',
     connectToPeer r d (inr c) t0 = Done true w' ->
     exists hs rest rsv pid,
       incoming c = hs ++ rest
       /\ hs.*2 = handshakeBytes rsv (InfoHash (dTorrentFile d)) pid)
  /\ (forall hs rest rsv ih pid,
        incoming c = hs ++ rest ->
        hs.*2 = handshakeBytes rsv ih pid ->
        length rsv = 8%nat -> length ih = 20%nat -> length pid = 20%nat ->
        closed c = false -> writeError c = None ->
        expired c (arrival t0 hs) = false ->
        ih <> InfoHash (dTorrentFile d) ->
        exists w',
          connectToPeer r d (inr c) t0 = Done false w'
          /\ logged w' = ["unexpected info_hash"]).
Proof.
  split.
  - intros w' H. unfold connectToPeer in H. rewrite sendHandShake_bytes in H.
    destruct (connWrite _ _) as [u w1|e w1|w1] eqn:Hw; try discriminate.
    apply connWrite_inv in Hw. subst w1.
    destruct (readHandShake true _) as [pid w2|e w2|w2] eqn:Hr; try discriminate.
    apply readHandShake_inv in Hr
      as (hs & rest & rsv & ih & Hi & Hhs & _ & _ & _ & _ & _ & _ & ->).
    cbn [infoHashC set_infoHashC] in H.
    destruct (bool_decide (ih <> _)) eqn:Hne; [discriminate|].
    apply bool_decide_eq_false_1 in Hne.
    destruct (decide (ih = InfoHash (dTorrentFile d))) as [->|Hn]; [|now destruct Hne].
    now exists hs, rest, rsv, pid.
  - intros hs rest rsv ih pid Hi Hhs Lr Lih Lpid Hc Hwe He Hne.
    unfold connectToPeer. rewrite sendHandShake_bytes.
    unfold connWrite at 1. cbn [conn now]. rewrite Hc, Hwe.
    rewrite (expired_mono c t0 _ (arrival_ge t0 hs) He).
    rewrite (readHandShake_ok _ hs rest rsv ih pid); try assumption; try reflexivity.
    cbn [infoHashC set_infoHashC].
    rewrite bool_decide_eq_true_2 by exact Hne.
    eexists. split; reflexivity.
Qed.

Lemma connectToPeer_checks_infoHash_witness :
  exists w',
    connectToPeer rainX downloadA (inr (peerSending noFlags hashB)) 0 = Done false w'
    /\ logged w' = ["unexpected info_hash"].
Proof.
  destruct (connectToPeer_checks_infoHash rainX downloadA (peerSending noFlags hashB) 0)
    as [_ H].
  apply (H (arrivingAt 5 (handshakeBytes noFlags hashB peerY)) [] noFlags hashB peerY);
    try reflexivity.
  discriminate.
Defined.

(** C7, evaluated at two failing inputs. A peer that answers with a whole
    handshake for another info hash: [connectToPeer] logs "unexpected
    info_hash" and returns, and the connection is left open, not closed and
    with no deadline; nothing on the outbound path calls [Close], which the
    inbound path defers on every return. A peer that sends the first 48
    bytes with another info hash and then stays silent: [connectToPeer]
    never gets to compare the info hash, it blocks for ever reading the
    peer id, the wrong info hash sitting on the channel. In neither case is
    the connection dropped. *)
Lemma connectToPeer_mismatch_not_dropped :
  connectToPeer rainX downloadA (inr (peerSending noFlags hashB)) 0
  = Done false
      {| conn := {| incoming := []; peerCloses := None; writeError := None;
                    deadline := None;
                    sent := handshakeBytes (replicate 8 x00) hashA peerX;
                    closed := false |};
         now := 5; infoHashC := []; logged := ["unexpected info_hash"] |}
  /\ connectToPeer rainX downloadA
       (inr (freshConn (arrivingAt 5 ([x13] ++ bitTorrent10pstr ++ noFlags ++ hashB))
               None)) 0
     = Hung
         {| conn := {| incoming := []; peerCloses := None; writeError := None;
                       deadline := None;
                       sent := handshakeBytes (replicate 8 x00) hashA peerX;
                       closed := false |};
            now := 5; infoHashC := [(5, hashB)]; logged := [] |}.
Proof. split; vm_compute; reflexivity. Qed.

Lemma arrival_times t (l l' : list (Z * byte)) :
  l'.*1 = l.*1 -> arrival t l' = arrival t l.
Proof.
  revert t l'. induction l as [|[t1 b1] l IH]; intros t [|[t2 b2] l'] H;
    try discriminate; [reflexivity|].
  cbn in H. injection H as -> H. cbn. now apply (IH (Z.max t t1)).
Qed.

(** C8, as stated, fails: nothing is recorded about the reserved bits. A
    peer that sets the fast-extension bit and the extension-protocol bit and
    a peer that sets no bit give [readHandShake] the same result, world
    included, so no function of that result tells the two apart. *)
Lemma reserved_bits_not_recorded :
  ~ (exists recorded : Res (list byte) -> bool * bool,
       forall reserved,
         length reserved = 8%nat ->
         recorded (readHandShake true (startWorld (peerSending reserved hashA) 0))
         = (fastExtension reserved, extensionProtocol reserved)).
Proof.
  intros [recorded H].
  pose proof (H noFlags eq_refl) as H0.
  pose proof (H bothFlags eq_refl) as H1.
  assert (E : readHandShake true (startWorld (peerSending bothFlags hashA) 0)
              = readHandShake true (startWorld (peerSending noFlags hashA) 0))
    by (vm_compute; reflexivity).
  rewrite E, H0 in H1. discriminate H1.
Qed.

(** C8 (amended): when reading a handshake the 8 reserved bytes are read and
    thrown away. No reserved bit, the fast-extension and extension-protocol
    bits included, is recognised or recorded, and none makes the handshake
    fail: a complete handshake that arrives in time is accepted whatever its
    reserved bytes are, and replacing them by any other 8 bytes gives the
    same result and the same world. *)
Theorem reserved_bytes_ignored
    (w : World) (hs hs' rest : list (Z * byte)) (rsv rsv' ih pid : list byte) :
  closed (conn w) = false ->
  infoHashC w = [] ->
  incoming (conn w) = hs ++ rest ->
  hs.*2 = handshakeBytes rsv ih pid ->
  hs'.*2 = handshakeBytes rsv' ih pid ->
  hs'.*1 = hs.*1 ->
  length rsv = 8%nat -> length rsv' = 8%nat ->
  length ih = 20%nat -> length pid = 20%nat ->
  expired (conn w) (arrival (now w) hs) = false ->
  readHandShake true w
  = Ok pid (set_infoHashC [(arrival (now w) (take 48 hs), ih)] (after hs rest w))
  /\ readHandShake true (set_conn (set_incoming (hs' ++ rest) (conn w)) w)
     = readHandShake true w.
Proof.
  intros Hc Hq Hi Hhs Hhs' Ht Lr Lr' Lih Lpid He.
  pose proof (readHandShake_ok w hs rest rsv ih pid Hc Hi Hhs Lr Lih Lpid He Hq) as H.
  split; [exact H|]. rewrite H.
  rewrite (readHandShake_ok _ hs' rest rsv' ih pid); try assumption; try reflexivity.
  - f_equal. unfold after, set_infoHashC, set_now, set_conn, set_incoming. cbn.
    rewrite (arrival_times _ hs hs' Ht).
    rewrite (arrival_times _ (take 48 hs) (take 48 hs')); [reflexivity|].
    now rewrite !fmap_take, Ht.
  - cbn. unfold expired in *. cbn. now rewrite (arrival_times _ hs hs' Ht).
Qed.

Lemma reserved_bytes_ignored_witness :
  readHandShake true (startWorld (peerSending bothFlags hashA) 0)
  = readHandShake true (startWorld (peerSending noFlags hashA) 0)
  /\ readHandShake true (startWorld (peerSending noFlags hashA) 0)
     = Ok peerY {| conn := freshConn [] None; now := 5;
                   infoHashC := [(5, hashA)]; logged := [] |}.
Proof.
  destruct (reserved_bytes_ignored
              (startWorld (peerSending noFlags hashA) 0)
              (arrivingAt 5 (handshakeBytes noFlags hashA peerY))
              (arrivingAt 5 (handshakeBytes bothFlags hashA peerY))
              [] noFlags bothFlags hashA peerY)
    as [H1 H2]; try reflexivity.
  split; [exact H2|]. rewrite H1. reflexivity.
Defined.

End RainProofs.

Module base64Proofs.

Import base64.

(** Induction in steps of three bytes, the way the encoder consumes them. *)
Lemma triples_ind {A} (P : list A -> Prop) :
  P [] -> (forall a, P [a]) -> (forall a b, P [a; b]) ->
  (forall a b c l, P l -> P (a :: b :: c :: l)) ->
  forall l, P l.
Proof.
  intros H0 H1 H2 H3 l.
  assert (H : forall n l, (length l <= n)%nat -> P l).
  { clear l. induction n as [|n IH]; intros l Hl.
    - destruct l; [exact H0|cbn in Hl; lia].
    - destruct l as [|a [|b [|c l]]]; auto.
      apply H3, IH. cbn in Hl. lia. }
  exact (H (length l) l (le_n _)).
Qed.

Lemma encode_urlSafe v : urlSafe (encode v) = true.
Proof.
  unfold encode.
  change 63%Z with (Z.ones 6). rewrite Z.land_ones by lia.
  pose proof (Z.mod_pos_bound v (2 ^ 6) ltac:(lia)) as Hb.
  set (n := Z.to_nat (v mod 2 ^ 6)).
  assert (Hn : (n < 64)%nat) by (subst n; lia).
  clearbody n.
  do 64 (destruct n as [|n]; [reflexivity|]). lia.
Qed.

(** No padding: n bytes give ceil(4n/3) characters. *)
Lemma EncodeToString_length l :
  String.length (EncodeToString l) = ((4 * length l + 2) / 3)%nat.
Proof.
  induction l as [|a|a b|a b c l IH] using triples_ind; try reflexivity.
  cbn [EncodeToString String.length length]. rewrite IH.
  replace (4 * S (S (S (length l))) + 2)%nat with ((4 * length l + 2) + 4 * 3)%nat by lia.
  rewrite Nat.div_add by lia. lia.
Qed.

Lemma EncodeToString_urlSafe l : allUrlSafe (EncodeToString l) = true.
Proof.
  unfold allUrlSafe.
  induction l as [|a|a b|a b c l IH] using triples_ind;
    cbn [EncodeToString String.list_ascii_of_string forallb];
    rewrite ?encode_urlSafe, ?IH; reflexivity.
Qed.

End base64Proofs.

Module SessionAddProofs.

Import SessionAdd.
Local Open Scope Z_scope.

(** *** The port allocator *)

Lemma default_lookup_elem (p0 : Z) (ps : list Z) (i : nat) :
  default p0 ((p0 :: ps) !! i) ∈ p0 :: ps.
Proof.
  destruct ((p0 :: ps) !! i) as [q|] eqn:Hq.
  - eapply list_elem_of_lookup_2. exact Hq.
  - left.
Qed.

Lemma getPort_inv E w p w1 :
  getPort E w = (inr p, w1) ->
  p ∈ availablePorts (session w)
  /\ session w1 = set_availablePorts (availablePorts (session w) ∖ {[p]}) (session w)
  /\ events w1 = events w ++ [GetPort p].
Proof.
  unfold getPort.
  destruct (elements (availablePorts (session w))) as [|p0 ps] eqn:Hel; [discriminate|].
  intros [= <- <-]. repeat split.
  apply elem_of_elements. rewrite Hel. apply default_lookup_elem.
Qed.

Lemma getPort_fail E w e w1 : getPort E w = (inl e, w1) -> w1 = w.
Proof.
  unfold getPort. destruct (elements _); [|discriminate]. now intros [= _ <-].
Qed.

(** Giving a port back after taking it restores the session. *)
Lemma releasePort_getPort E w p w1 w2 :
  getPort E w = (inr p, w1) ->
  session w2 = session w1 ->
  session (releasePort p w2) = session w.
Proof.
  intros H Hs. apply getPort_inv in H as (Hin & Hs1 & _).
  unfold releasePort. cbn. rewrite Hs, Hs1. cbn.
  rewrite <- (union_difference_singleton_L p _ Hin).
  now destruct (session w).
Qed.

(** *** [add] *)

Lemma add_fail E w e w' :
  add E w = (inl e, w') ->
  session w' = session w /\ undone (events w) (events w').
Proof.
  unfold add. destruct (getPort E w) as [[e0|p] w1] eqn:Hg.
  - intros [= _ <-]. apply getPort_fail in Hg. subst w1. split; [reflexivity|now left].
  - pose proof (releasePort_getPort E w p w1 w1 Hg eq_refl) as Hrel.
    apply getPort_inv in Hg as (_ & _ & Hev).
    destruct (uuid_NewV1 E) as [e1|u1].
    + intros [= _ <-]. cbn. split; [exact Hrel|].
      right; left. exists p. cbn. rewrite Hev. now rewrite <- app_assoc.
    + destruct (filestorage_New E _) as [e2|]; [|discriminate].
      intros [= _ <-]. cbn. split; [exact Hrel|].
      right; left. exists p. cbn. rewrite Hev. now rewrite <- app_assoc.
Qed.

Lemma add_ok E w tid p sto w' :
  add E w = (inr (tid, p, sto), w') ->
  exists u1,
    uuid_NewV1 E = inr u1
    /\ tid = base64.EncodeToString u1
    /\ sto = {| filestorage.Dest := filepath_Join E (DataDir (config (session w))) tid |}
    /\ filestorage_New E (filestorage.Dest sto) = None
    /\ events w' = events w ++ [GetPort p]
    /\ (forall w2, session w2 = session w' -> session (releasePort p w2) = session w)
    /\ config (session w') = config (session w)
    /\ resumer (session w') = resumer (session w)
    /\ torrents (session w') = torrents (session w)
    /\ torrentsByInfoHash (session w') = torrentsByInfoHash (session w).
Proof.
  unfold add. destruct (getPort E w) as [[e0|p0] w1] eqn:Hg; [discriminate|].
  pose proof (fun w2 => releasePort_getPort E w p0 w1 w2 Hg) as Hrel.
  apply getPort_inv in Hg as (_ & Hs & Hev).
  destruct (uuid_NewV1 E) as [e1|u1]; [discriminate|].
  destruct (filestorage_New E _) as [e2|] eqn:Hfs; [discriminate|].
  intros [= <- <- <- <-]. exists u1. cbn.
  rewrite Hs in *. cbn in *. repeat split; try assumption.
Qed.

(** *** The add paths *)

(** [addTorrentStopped] returns a torrent or an error, never both. *)
Lemma addTorrentStopped_shape E r w ot oe w' :
  addTorrentStopped E r w = (ot, oe, w') ->
  (ot = None /\ exists e, oe = Some e) \/ (oe = None /\ exists t, ot = Some t).
Proof.
  unfold addTorrentStopped, newTorrent2, resumerWrite, insertTorrent.
  destruct (metainfo_New E _) as [e|mi]; [intros [= <- <- _]; left; eauto|].
  destruct (add E w) as [[e|[[tid p] sto]] w1]; [intros [= <- <- _]; left; eauto|].
  destruct (newTorrent2_error E _) as [e|]; [intros [= <- <- _]; left; eauto|].
  destruct (resumer_Write_error E _ _) as [e|]; intros [= <- <- _]; [left|right]; eauto.
Qed.

Lemma addTorrentStopped_fail E r w e w' :
  addTorrentStopped E r w = (None, Some e, w') ->
  session w' = session w /\ undone (events w) (events w').
Proof.
  unfold addTorrentStopped, newTorrent2, resumerWrite, insertTorrent.
  destruct (metainfo_New E _) as [e0|mi].
  { intros [= _ <-]. split; [reflexivity|now left]. }
  destruct (add E w) as [[e0|[[tid p] sto]] w1] eqn:Ha.
  { intros [= _ <-]. exact (add_fail E w e0 w1 Ha). }
  apply add_ok in Ha as (u1 & _ & _ & _ & _ & Hev & Hrel & _).
  destruct (newTorrent2_error E _) as [e0|].
  { intros [= _ <-]. cbn. split; [now apply Hrel|].
    right; left. exists p. cbn. rewrite Hev. now rewrite <- app_assoc. }
  destruct (resumer_Write_error E _ _) as [e0|]; [|discriminate].
  intros [= _ <-]. cbn. split; [now apply Hrel|].
  right; right. exists p, tid. cbn. rewrite Hev. now rewrite <- !app_assoc.
Qed.

Lemma addMagnet_fail E link opt w e w' :
  addMagnet E link opt w = (None, Some e, w') ->
  session w' = session w /\ undone (events w) (events w').
Proof.
  unfold addMagnet, newTorrent2, resumerWrite, insertTorrent.
  destruct (magnet_New E _) as [e0|ma].
  { intros [= _ <-]. split; [reflexivity|now left]. }
  destruct (add E w) as [[e0|[[tid p] sto]] w1] eqn:Ha.
  { intros [= _ <-]. exact (add_fail E w e0 w1 Ha). }
  apply add_ok in Ha as (u1 & _ & _ & _ & _ & Hev & Hrel & _).
  destruct (newTorrent2_error E _) as [e0|].
  { intros [= _ <-]. cbn. split; [now apply Hrel|].
    right; left. exists p. cbn. rewrite Hev. now rewrite <- app_assoc. }
  destruct (resumer_Write_error E _ _) as [e0|].
  { intros [= _ <-]. cbn. split; [now apply Hrel|].
    right; right. exists p, tid. cbn. rewrite Hev. now rewrite <- !app_assoc. }
  destruct (wantsStart opt); cbn; discriminate.
Qed.

(** C10: when adding a torrent fails, by metainfo ([addTorrentStopped],
    [AddTorrent]) or by magnet link ([addMagnet]), with no torrent handed
    back (a parse error, no free port, a UUID error, a storage error, a
    constructor error or a resume-store write error), the session is what it
    was: the same free ports, resume store and registries, so no torrent was
    inserted. The events tell what was undone: nothing was acquired; or the
    port acquired was released; or, with the torrent already constructed,
    the torrent was closed and then the port released. *)
Theorem failed_add_leaves_session_unchanged (E : Env) (w : World) :
  (forall r e w',
     addTorrentStopped E r w = (None, Some e, w') ->
     session w' = session w /\ undone (events w) (events w'))
  /\ (forall r opt e w',
        AddTorrent E r opt w = (None, Some e, w') ->
        session w' = session w /\ undone (events w) (events w'))
  /\ (forall link opt e w',
        addMagnet E link opt w = (None, Some e, w') ->
        session w' = session w /\ undone (events w) (events w')).
Proof.
  split; [intros r e w'; apply addTorrentStopped_fail|].
  split; [|intros link opt e w'; apply addMagnet_fail].
  intros r opt e w'. unfold AddTorrent.
  destruct (addTorrentStopped E r w) as [[ot oe] w1] eqn:H.
  destruct (addTorrentStopped_shape E r w ot oe w1 H)
    as [[-> [e0 ->]]|[-> [t ->]]].
  - intros [= <- <-]. exact (addTorrentStopped_fail E r w e0 w1 H).
  - destruct (wantsStart opt); [|discriminate].
    unfold Start. discriminate.
Qed.

Lemma failed_add_leaves_session_unchanged_witness :
  exists w',
    addTorrentStopped envWriteFails [] world0 = (None, Some "database not open", w')
    /\ session w' = session world0
    /\ events w'
       = [GetPort 50001; GoCheckTorrent "a6e4EJ2tEdGAtADAT9QwyA";
          CloseTorrent "a6e4EJ2tEdGAtADAT9QwyA"; ReleasePort 50001].
Proof.
  destruct (addTorrentStopped envWriteFails [] world0) as [[ot oe] w'] eqn:Hr.
  assert (Hres : ot = None /\ oe = Some "database not open"
                 /\ events w'
                    = [GetPort 50001; GoCheckTorrent "a6e4EJ2tEdGAtADAT9QwyA";
                       CloseTorrent "a6e4EJ2tEdGAtADAT9QwyA"; ReleasePort 50001]).
  { vm_compute in Hr. injection Hr as <- <- <-. repeat split. }
  destruct Hres as (-> & -> & Hev).
  destruct (failed_add_leaves_session_unchanged envWriteFails world0) as [H _].
  destruct (H [] _ w' Hr) as [Hs _].
  exists w'. repeat split; assumption.
Defined.

(** C9: a torrent added from a metainfo gets as its id the unpadded
    URL-safe base64 text of the UUID that [uuid.NewV1] returned (22
    characters of the URL-safe alphabet for the 16 bytes of a UUID). The
    resume store is written under that id, the registry holds the torrent
    under that id, and the storage of the torrent, which is also the [Dest]
    of the stored record, is the directory of that name joined to the
    session's data dir. *)
Theorem torrent_id_is_base64_of_uuid
    (E : Env) (r : list byte) (w : World) (t2 : Torrent) (w' : World) :
  addTorrentStopped E r w = (Some t2, None, w') ->
  let tid := id (torrent_ t2) in
  let dest := filepath_Join E (DataDir (config (session w))) tid in
  exists u1 spec,
    uuid_NewV1 E = inr u1
    /\ tid = base64.EncodeToString u1
    /\ base64.allUrlSafe tid = true
    /\ (length u1 = 16%nat -> String.length tid = 22%nat)
    /\ resumer (session w') = <[tid := spec]> (resumer (session w))
    /\ boltdbresumer.Dest spec = dest
    /\ filestorage.Dest (storage (torrent_ t2)) = dest
    /\ torrents (session w') = <[tid := t2]> (torrents (session w)).
Proof.
  unfold addTorrentStopped, newTorrent2, resumerWrite, insertTorrent.
  destruct (metainfo_New E _) as [e0|mi]; [discriminate|].
  destruct (add E w) as [[e0|[[tid p] sto]] w1] eqn:Ha; [discriminate|].
  apply add_ok in Ha as (u1 & Hu & Hid & Hsto & _ & _ & _ & _ & Hres & Htor & _).
  destruct (newTorrent2_error E _) as [e0|]; [discriminate|].
  destruct (resumer_Write_error E _ _) as [e0|]; [discriminate|].
  intros [= <- <-]. cbn.
  eexists u1, _. split; [exact Hu|]. split; [exact Hid|].
  split; [rewrite Hid; apply base64Proofs.EncodeToString_urlSafe|].
  split.
  { intros Hl. rewrite Hid, base64Proofs.EncodeToString_length, Hl. reflexivity. }
  split; [now rewrite Hres|].
  split; [cbn; now rewrite Hsto|].
  split; [now rewrite Hsto|].
  now rewrite Htor.
Qed.

Lemma torrent_id_is_base64_of_uuid_witness :
  exists t2 w',
    addTorrentStopped env0 [] world0 = (Some t2, None, w')
    /\ id (torrent_ t2) = "a6e4EJ2tEdGAtADAT9QwyA"
    /\ filestorage.Dest (storage (torrent_ t2)) = "/data/a6e4EJ2tEdGAtADAT9QwyA"
    /\ is_Some (resumer (session w') !! "a6e4EJ2tEdGAtADAT9QwyA")
    /\ torrents (session w') !! "a6e4EJ2tEdGAtADAT9QwyA" = Some t2.
Proof.
  destruct (addTorrentStopped env0 [] world0) as [[ot oe] w'] eqn:H.
  assert (Hot : exists t2, ot = Some t2 /\ oe = None).
  { vm_compute in H. injection H as <- <- _. eauto. }
  destruct Hot as (t2 & -> & ->).
  destruct (torrent_id_is_base64_of_uuid env0 [] world0 t2 w' H)
    as (u1 & spec & Hu & Hid & _ & _ & Hres & _ & Hdest & Htor).
  injection Hu as <-.
  exists t2, w'. split; [reflexivity|].
  split; [rewrite Hid; reflexivity|].
  split; [rewrite Hdest, Hid; reflexivity|].
  split; [rewrite Hres, Hid; rewrite lookup_insert_eq; eauto|].
  rewrite Htor, Hid. change (base64.EncodeToString uuid1) with "a6e4EJ2tEdGAtADAT9QwyA".
  apply lookup_insert_eq.
Defined.

End SessionAddProofs.

(* ===================================================================== *)
(** * Further properties of the modelled code                             *)
(* ===================================================================== *)

Module CoordinatorExtras.

Import Coordinator.
Import CoordinatorProofs.
Local Open Scope Z_scope.

(** A result without error whose index is not below the number of pieces
    makes the handler panic at [&t.pieces[msg.Index]], before anything is
    counted: the torrent is exactly as it was. *)
Theorem index_out_of_range_panics_untouched (t : torrent) (msg : PieceResult) :
  Error msg = None ->
  (length (pieces t) <= Index msg)%nat ->
  handleWebseedPieceResult t msg = Panicked "index out of range" t.
Proof.
  intros He Hi. apply handle_out_of_range; [exact He|].
  now apply lookup_ge_None_2.
Qed.

Lemma index_out_of_range_panics_untouched_witness :
  handleWebseedPieceResult idle1
    {| Downloader := "http://seed/a"; MsgBuffer := zeros16k; Index := 1%nat;
       Error := None |}
  = Panicked "index out of range" idle1.
Proof.
  apply index_out_of_range_panics_untouched; [reflexivity|cbn; lia].
Defined.

(** Whatever the result and however the handler ends, the number of pieces
    is kept, a piece that was Writing is still Writing, and a piece other
    than the one the result names is untouched: the handler sets Writing
    flags and never clears one. *)
Theorem handler_never_clears_writing (t : torrent) (msg : PieceResult) :
  let t' := stateOf (handleWebseedPieceResult t msg) in
  length (pieces t') = length (pieces t)
  /\ (forall i p, pieces t !! i = Some p -> Writing p = true -> pieces t' !! i = Some p)
  /\ (forall i, i <> Index msg -> pieces t' !! i = pieces t !! i).
Proof.
  unfold handleWebseedPieceResult.
  destruct (Error msg) as [e|]; [cbn; now repeat split|].
  destruct (pieces t !! Index msg) as [piece|] eqn:Hp; [|cbn; now repeat split].
  cbn zeta. destruct (Writing piece) eqn:Hw; [cbn; now repeat split|].
  cbn. split; [apply length_insert|]. split.
  - intros i p Hi Hwp.
    destruct (decide (i = Index msg)) as [->|Hne].
    + rewrite Hp in Hi. injection Hi as <-. congruence.
    + now rewrite list_lookup_insert_ne.
  - intros i Hne. now rewrite list_lookup_insert_ne.
Qed.

(** The byte counter never leaves the range of an [int64], and as long as
    the sum fits it is the exact sum. *)
Theorem bytesDownloaded_int64 (t : torrent) (msg : PieceResult) :
  let t' := stateOf (handleWebseedPieceResult t msg) in
  let n := Z.of_nat (length (Data (MsgBuffer msg))) in
  - 2 ^ 63 <= BytesDownloaded t < 2 ^ 63 ->
  - 2 ^ 63 <= BytesDownloaded t' < 2 ^ 63
  /\ (BytesDownloaded t' = BytesDownloaded t
      \/ BytesDownloaded t' = wrap64 (BytesDownloaded t + n))
  /\ (BytesDownloaded t + n < 2 ^ 63 ->
      BytesDownloaded t' = BytesDownloaded t
      \/ BytesDownloaded t' = BytesDownloaded t + n).
Proof.
  intros t' n Hr.
  assert (Hw : - 2 ^ 63 <= wrap64 (BytesDownloaded t + n) < 2 ^ 63).
  { unfold wrap64.
    pose proof (Z.mod_pos_bound (BytesDownloaded t + n + 2 ^ 63) (2 ^ 64) ltac:(lia)).
    lia. }
  assert (Hs : BytesDownloaded t + n < 2 ^ 63 ->
               wrap64 (BytesDownloaded t + n) = BytesDownloaded t + n).
  { intros Hlt. apply wrap64_small. subst n. lia. }
  subst t'. unfold handleWebseedPieceResult.
  destruct (Error msg) as [e|]; [cbn; split; [exact Hr|]; split; auto|].
  destruct (pieces t !! Index msg) as [piece|]; [|cbn; split; [exact Hr|]; split; auto].
  cbn zeta. destruct (Writing piece); cbn; fold n.
  - split; [exact Hw|]. split; [now right|]. intros Hlt. right. now apply Hs.
  - split; [exact Hw|]. split; [now right|]. intros Hlt. right. now apply Hs.
Qed.

Lemma bytesDownloaded_int64_witness :
  - 2 ^ 63
  <= BytesDownloaded (stateOf (handleWebseedPieceResult idle1 okResult)) < 2 ^ 63.
Proof.
  apply (bytesDownloaded_int64 idle1 okResult). cbn. lia.
Defined.

(** The handler does not protect itself against a second result: called
    again for the same piece after a successful call, with no writer result
    in between, it panics, having counted the second buffer as downloaded
    too. (In the loop the closed gate keeps that second call from
    happening.) *)
Theorem second_result_for_same_piece_panics
    (t t' : torrent) (msg msg2 : PieceResult) :
  handleWebseedPieceResult t msg = Returned t' ->
  Error msg = None ->
  Error msg2 = None ->
  Index msg2 = Index msg ->
  exists t'',
    handleWebseedPieceResult t' msg2 = Panicked "piece is already writing" t''
    /\ pieces t'' = pieces t'
    /\ BytesDownloaded t''
       = wrap64 (BytesDownloaded t' + Z.of_nat (length (Data (MsgBuffer msg2)))).
Proof.
  intros H He He2 Hi.
  unfold handleWebseedPieceResult in H. rewrite He in H.
  destruct (pieces t !! Index msg) as [piece|] eqn:Hp; [|discriminate].
  cbn zeta in H. destruct (Writing piece) eqn:Hw; [discriminate|].
  injection H as <-.
  assert (Hlt : (Index msg < length (pieces t))%nat)
    by (apply lookup_lt_is_Some; eauto).
  eexists. split.
  - apply (handle_writing _ msg2 {| Writing := true |}); [exact He2| |reflexivity].
    rewrite Hi. cbn. now apply list_lookup_insert_eq.
  - split; reflexivity.
Qed.

Lemma second_result_for_same_piece_panics_witness :
  exists t'',
    handleWebseedPieceResult (stateOf (handleWebseedPieceResult idle1 okResult)) okResult
    = Panicked "piece is already writing" t''
    /\ BytesDownloaded t'' = 32768.
Proof.
  destruct (second_result_for_same_piece_panics idle1
              (stateOf (handleWebseedPieceResult idle1 okResult)) okResult okResult
              eq_refl eq_refl eq_refl eq_refl) as (t'' & H & _ & Hb).
  exists t''. split; [exact H|]. rewrite Hb. reflexivity.
Defined.

(** With the webseed gate open, a schedule of webseed results that all carry
    an error runs to its end without panic and leaves nothing pending; each
    result adds its line to the log, and pieces, counter, gates and effects
    are as before: failed downloads are reported and otherwise forgotten. *)
Theorem error_results_only_fill_the_log
    {PM WR : Type} (hpm : torrent -> PM -> Outcome) (hpw : torrent -> WR -> Outcome)
    (t : torrent) (msgs : list PieceResult) :
  webseedPieceResultSuspended t = false ->
  Forall (fun m => Error m <> None) msgs ->
  exists t',
    run PM WR hpm hpw t (map (EvWebseedPieceResult PM WR) msgs) = (Returned t', [])
    /\ pieces t' = pieces t
    /\ BytesDownloaded t' = BytesDownloaded t
    /\ pieceMessagesSuspended t' = pieceMessagesSuspended t
    /\ webseedPieceResultSuspended t' = false
    /\ effects t' = effects t
    /\ log t'
       = log t ++ map (fun m => "webseed download error: " +:+ default "" (Error m)) msgs.
Proof.
  intros Hg Hall. revert t Hg.
  induction Hall as [|m msgs Hm _ IH]; intros t Hg.
  - exists t. cbn. rewrite app_nil_r. now repeat split.
  - destruct (Error m) as [e|] eqn:He; [|congruence].
    cbn [map run dispatch]. rewrite Hg, (handle_error t m e He).
    destruct (IH (Errorln ("webseed download error: " +:+ e) t) Hg)
      as (t' & Hrun & Hp & Hb & Hpm & Hws & Hef & Hlog).
    exists t'. rewrite Hrun. cbn in *. rewrite He. cbn.
    repeat split; try assumption.
    now rewrite Hlog, <- app_assoc.
Qed.

Lemma error_results_only_fill_the_log_witness :
  exists t',
    run unit unit (fun t _ => Returned t) (fun t _ => Returned t) idle1
      [EvWebseedPieceResult unit unit errResult; EvWebseedPieceResult unit unit errResult]
    = (Returned t', [])
    /\ pieces t' = pieces idle1
    /\ length (log t') = 2%nat.
Proof.
  destruct (error_results_only_fill_the_log (PM := unit) (WR := unit)
              (fun t _ => Returned t) (fun t _ => Returned t) idle1
              [errResult; errResult] eq_refl)
    as (t' & Hrun & Hp & _ & _ & _ & _ & Hlog).
  { repeat constructor; discriminate. }
  exists t'. split; [exact Hrun|]. split; [exact Hp|]. now rewrite Hlog.
Defined.

End CoordinatorExtras.

Module RainExtras.

Import Rain.
Import RainProofs.
Local Open Scope Z_scope.

#[local] Arguments handshakeBytes : simpl never.

Lemma copy_length (dst src : list byte) : length (copy dst src) = length dst.
Proof.
  unfold copy. rewrite length_app, length_take, length_drop. lia.
Qed.

(** Whatever [rand.Read] stores, and whether or not it fails, the peer id is
    20 bytes long and starts with "-RN0001-"; when the 12 random bytes are
    all there they follow the prefix as they are. The error returned is the
    error of [rand.Read]. *)
Theorem generatePeerID_shape (random : list byte) (err : option error) :
  let r := (generatePeerID random err).1 in
  length (peerID r) = 20%nat
  /\ take 8 (peerID r) = peerIDPrefix
  /\ (generatePeerID random err).2 = err
  /\ (length random = 12%nat -> peerID r = peerIDPrefix ++ random).
Proof.
  cbn. split; [|split; [reflexivity|split; [reflexivity|]]].
  - f_equal. do 7 f_equal.
    change (length (copy (replicate 12 x00) random) = 12%nat).
    now rewrite copy_length.
  - intros Hl. do 8 f_equal.
    change (copy (replicate 12 x00) random = random).
    unfold copy. rewrite length_replicate, Hl.
    rewrite take_ge by lia. cbn. apply app_nil_r.
Qed.

Lemma arrival_take t (l : list (Z * byte)) n : arrival t (take n l) <= arrival t l.
Proof.
  rewrite <- (take_drop n l) at 2. apply arrival_prefix.
Qed.

(** Round trip on the wire: the bytes that one client's [sendHandShake]
    wrote on a fresh connection, arriving at any times before the deadline,
    are accepted by [readHandShake], which returns the sender's peer id,
    puts the sender's info hash on the channel and leaves what follows the
    handshake unread. *)
Theorem handshake_round_trip
    (r : Rain) (ih : list byte) (ws ws' wr : World) (ts : list Z)
    (rest : list (Z * byte)) :
  length ih = 20%nat ->
  length (peerID r) = 20%nat ->
  sent (conn ws) = [] ->
  sendHandShake r ih ws = Ok tt ws' ->
  length ts = 68%nat ->
  incoming (conn wr) = zip ts (sent (conn ws')) ++ rest ->
  closed (conn wr) = false ->
  infoHashC wr = [] ->
  expired (conn wr) (arrival (now wr) (zip ts (sent (conn ws')))) = false ->
  exists w',
    readHandShake true wr = Ok (peerID r) w'
    /\ (infoHashC w').*2 = [ih]
    /\ incoming (conn w') = rest.
Proof.
  intros Lih Lpid Hs Hsend Lts Hi Hc Hq He.
  rewrite sendHandShake_bytes in Hsend. apply connWrite_inv in Hsend.
  assert (Hsent : sent (conn ws') = handshakeBytes (replicate 8 x00) ih (peerID r)).
  { subst ws'. cbn. now rewrite Hs. }
  rewrite Hsent in *.
  assert (Hlen : length (handshakeBytes (replicate 8 x00) ih (peerID r)) = 68%nat).
  { unfold handshakeBytes. rewrite !length_app, length_replicate, Lih, Lpid.
    reflexivity. }
  eexists. split.
  - apply (readHandShake_ok wr
             (zip ts (handshakeBytes (replicate 8 x00) ih (peerID r)))
             rest (replicate 8 x00) ih (peerID r));
      try assumption; try reflexivity.
    apply snd_zip. lia.
  - split; reflexivity.
Qed.

Lemma handshake_round_trip_witness :
  exists w',
    readHandShake true
      (startWorld (freshConn (arrivingAt 5 (handshakeBytes (replicate 8 x00) hashA peerX))
                     None) 0)
    = Ok peerX w'
    /\ (infoHashC w').*2 = [hashA]
    /\ incoming (conn w') = [].
Proof.
  apply (handshake_round_trip rainX hashA (startWorld (freshConn [] None) 0)
           (startWorld {| incoming := []; peerCloses := None; writeError := None;
                          deadline := None;
                          sent := handshakeBytes (replicate 8 x00) hashA peerX;
                          closed := false |} 0)
           _ (replicate 68 5) []); reflexivity.
Defined.

Lemma connWrite_ok bs w :
  closed (conn w) = false -> expired (conn w) (now w) = false ->
  writeError (conn w) = None ->
  connWrite bs w = Ok tt (set_conn (set_sent (sent (conn w) ++ bs) (conn w)) w).
Proof. unfold connWrite. now intros -> -> ->. Qed.

(** The inbound path when all goes well: a peer whose whole handshake is
    read less than a minute after the handler started, on a connection that
    takes our write, and with the [select] taking the info hash first. The
    handler answers with our handshake carrying the peer's info hash and our
    peer id, reaches [communicateWithPeer], which clears the deadline and
    returns at once, and the deferred [Close] then closes the connection. *)
Theorem servePeerConn_accepts
    (r : Rain) (w : World) (hs rest : list (Z * byte)) (rsv ih pid : list byte) :
  closed (conn w) = false ->
  writeError (conn w) = None ->
  incoming (conn w) = hs ++ rest ->
  hs.*2 = handshakeBytes rsv ih pid ->
  length rsv = 8%nat -> length ih = 20%nat -> length pid = 20%nat ->
  arrival (now w) hs < now w + Minute ->
  exists w',
    servePeerConn r false w = Done true w'
    /\ sent (conn w') = sent (conn w) ++ handshakeBytes (replicate 8 x00) ih (peerID r)
    /\ incoming (conn w') = rest
    /\ deadline (conn w') = None
    /\ closed (conn w') = true
    /\ now w' = arrival (now w) hs.
Proof.
  intros Hc Hwe Hi Hhs Lr Lih Lpid Ht.
  unfold servePeerConn, SetDeadline. rewrite Hc.
  set (w1 := set_infoHashC [] _).
  assert (He : expired (conn w1) (arrival (now w1) hs) = false).
  { unfold expired. cbn. apply bool_decide_eq_false_2. lia. }
  rewrite (readHandShake_ok w1 hs rest rsv ih pid Hc Hi Hhs Lr Lih Lpid He eq_refl).
  cbn [worldOf infoHashC set_infoHashC andb].
  assert (He' : expired (conn w1) (arrival (now w1) (take 48 hs)) = false).
  { eapply expired_mono; [apply arrival_take|]. exact He. }
  rewrite sendHandShake_bytes, connWrite_ok; [|exact Hc|exact He'|exact Hwe].
  unfold communicateWithPeer, SetDeadline.
  cbn [conn now set_now set_infoHashC after set_conn set_incoming set_sent closed].
  change (closed (conn w1)) with (closed (conn w)). rewrite Hc.
  eexists. split; [reflexivity|]. now repeat split.
Qed.

Lemma servePeerConn_accepts_witness :
  exists w',
    servePeerConn rainX false (startWorld (peerSending noFlags hashB) 0) = Done true w'
    /\ sent (conn w') = handshakeBytes (replicate 8 x00) hashB peerX
    /\ closed (conn w') = true.
Proof.
  destruct (servePeerConn_accepts rainX (startWorld (peerSending noFlags hashB) 0)
              (arrivingAt 5 (handshakeBytes noFlags hashB peerY)) []
              noFlags hashB peerY)
    as (w' & H & Hs & _ & _ & Hcl & _); try reflexivity.
  exists w'. repeat split; assumption.
Defined.

(** The outbound path when all goes well: the peer answers with a whole
    handshake for the torrent's info hash. [connectToPeer] has sent its own
    handshake first, reaches [communicateWithPeer], logs no error and leaves
    the connection open with no deadline. *)
Theorem connectToPeer_accepts
    (r : Rain) (d : download) (c : Conn) (t0 : Z)
    (hs rest : list (Z * byte)) (rsv pid : list byte) :
  closed c = false ->
  writeError c = None ->
  incoming c = hs ++ rest ->
  hs.*2 = handshakeBytes rsv (InfoHash (dTorrentFile d)) pid ->
  length rsv = 8%nat ->
  length (InfoHash (dTorrentFile d)) = 20%nat ->
  length pid = 20%nat ->
  expired c (arrival t0 hs) = false ->
  exists w',
    connectToPeer r d (inr c) t0 = Done true w'
    /\ sent (conn w')
       = sent c ++ handshakeBytes (replicate 8 x00) (InfoHash (dTorrentFile d)) (peerID r)
    /\ incoming (conn w') = rest
    /\ deadline (conn w') = None
    /\ closed (conn w') = false
    /\ logged w' = [].
Proof.
  intros Hc Hwe Hi Hhs Lr Lih Lpid He.
  unfold connectToPeer.
  rewrite sendHandShake_bytes, connWrite_ok;
    [|exact Hc|exact (expired_mono c t0 _ (arrival_ge t0 hs) He)|exact Hwe].
  rewrite (readHandShake_ok _ hs rest rsv (InfoHash (dTorrentFile d)) pid);
    try assumption; try reflexivity.
  cbn [infoHashC set_infoHashC].
  rewrite bool_decide_eq_false_2 by (intros Hne; now apply Hne).
  unfold communicateWithPeer, SetDeadline.
  cbn [conn now set_now set_infoHashC after set_conn set_incoming set_sent closed].
  rewrite Hc.
  eexists. split; [reflexivity|]. now repeat split.
Qed.

Lemma connectToPeer_accepts_witness :
  exists w',
    connectToPeer rainX downloadA (inr (peerSending bothFlags hashA)) 0 = Done true w'
    /\ deadline (conn w') = None
    /\ closed (conn w') = false.
Proof.
  destruct (connectToPeer_accepts rainX downloadA (peerSending bothFlags hashA) 0
              (arrivingAt 5 (handshakeBytes bothFlags hashA peerY)) []
              bothFlags peerY)
    as (w' & H & _ & _ & Hd & Hcl & _); try reflexivity.
  exists w'. repeat split; assumption.
Defined.

(** The outbound handler has no [Close] and no [SetDeadline] with a time:
    however [connectToPeer] ends, the connection is closed only if it was
    closed when dialled, and its deadline is the one it had or none. *)
Theorem connectToPeer_never_closes (r : Rain) (d : download) (c : Conn) (t0 : Z) :
  match connectToPeer r d (inr c) t0 with
  | Done _ w' | Hung w' =>
      closed (conn w') = closed c
      /\ (deadline (conn w') = deadline c \/ deadline (conn w') = None)
      /\ peerCloses (conn w') = peerCloses c
  | DialFailed _ => False
  end.
Proof.
  unfold connectToPeer. rewrite sendHandShake_bytes.
  destruct (connWrite _ _) as [u w1|e w1|w1] eqn:Hw.
  - apply connWrite_inv in Hw. subst w1. set (w1 := set_conn _ _).
    pose proof (readHandShake_lineKept true w1) as ([l Hl] & _).
    assert (Hcl : closed (conn (worldOf (readHandShake true w1))) = closed c)
      by now rewrite Hl.
    assert (Hdl : deadline (conn (worldOf (readHandShake true w1))) = deadline c)
      by now rewrite Hl.
    assert (Hpc : peerCloses (conn (worldOf (readHandShake true w1))) = peerCloses c)
      by now rewrite Hl.
    clear Hl. revert Hcl Hdl Hpc.
    destruct (readHandShake true w1) as [pid w2'|e w2'|w2']; cbn [worldOf];
      intros Hcl Hdl Hpc.
    + destruct (infoHashC w2') as [|[t ih] q]; [cbn; auto|].
      destruct (bool_decide _); [cbn; auto|].
      unfold communicateWithPeer, SetDeadline. cbn [conn set_infoHashC].
      destruct (closed (conn w2')) eqn:Hc2; cbn; rewrite ?Hc2; auto.
    + cbn. auto.
    + cbn. auto.
  - apply connWrite_fail in Hw. subst w1. cbn. auto.
  - now apply connWrite_not_blocked in Hw.
Qed.

(** The first 48 bytes of a handshake take [readHandShake] up to the point
    where the info hash is on the channel and the peer id is still to be
    read. *)
Lemma readHandShake_head w hd rest rsv ih :
  closed (conn w) = false ->
  incoming (conn w) = hd ++ rest ->
  hd.*2 = [x13] ++ bitTorrent10pstr ++ rsv ++ ih ->
  length rsv = 8%nat -> length ih = 20%nat ->
  expired (conn w) (arrival (now w) hd) = false ->
  infoHashC w = [] ->
  readHandShake true w
  = readFull 20 (set_infoHashC [(arrival (now w) hd, ih)] (after hd rest w)).
Proof.
  intros Hc Hi Hhd Lr Lih He Hq.
  apply fmap_app_inv in Hhd as (p1 & r1 & H1 & Hhd & ->). symmetry in Hhd.
  apply fmap_app_inv in Hhd as (p2 & r2 & H2 & Hhd & ->). symmetry in Hhd.
  apply fmap_app_inv in Hhd as (p3 & p4 & H3 & H4 & ->).
  destruct p1 as [|[t b] [|? ?]]; try discriminate. injection H1 as <-.
  assert (L2 : length p2 = 19%nat) by now rewrite <- (length_fmap snd), <- H2.
  assert (L3 : length p3 = 8%nat) by now rewrite <- (length_fmap snd), <- H3.
  assert (L4 : length p4 = 20%nat) by now rewrite <- (length_fmap snd), <- H4.
  set (q1 := [(t, x13)]) in *.
  assert (E1 : expired (conn w) (arrival (now w) q1) = false).
  { eapply expired_mono; [|exact He]. apply arrival_prefix. }
  assert (E2 : expired (conn w) (arrival (now w) (q1 ++ p2)) = false).
  { eapply expired_mono; [|exact He]. rewrite (app_assoc q1). apply arrival_prefix. }
  assert (E3 : expired (conn w) (arrival (now w) ((q1 ++ p2) ++ p3)) = false).
  { eapply expired_mono; [|exact He].
    rewrite (app_assoc q1), (app_assoc (q1 ++ p2)). apply arrival_prefix. }
  assert (E4 : expired (conn w) (arrival (now w) (((q1 ++ p2) ++ p3) ++ p4)) = false).
  { now rewrite <- !app_assoc. }
  assert (Hi' : incoming (conn w) = (t, x13) :: p2 ++ p3 ++ p4 ++ rest).
  { rewrite Hi. subst q1. cbn. now rewrite <- !app_assoc. }
  unfold readHandShake.
  rewrite (bind_ok _ _ _ _ _ (connRead1_ok w t x13 _ Hc Hi' E1)).
  change (negb (Byte.to_N x13 =? bitTorrent10pstrLen)%N) with false. cbn match.
  rewrite (bind_ok _ _ _ _ _
             (readFull_ok _ (after q1 (p2 ++ p3 ++ p4 ++ rest) w)
                p2 (p3 ++ p4 ++ rest) Hc eq_refl L2
                ltac:(rewrite expired_after; exact E2))).
  rewrite <- H2, bool_decide_eq_true_2 by reflexivity. cbn match. cbn [negb].
  rewrite after_after.
  rewrite (bind_ok _ _ _ _ _
             (copyNDiscard_ok 8 (after (q1 ++ p2) (p3 ++ p4 ++ rest) w)
                p3 (p4 ++ rest) Hc eq_refl L3
                ltac:(rewrite expired_after; exact E3))).
  rewrite after_after.
  rewrite (bind_ok _ _ _ _ _
             (readFull_ok 20 (after ((q1 ++ p2) ++ p3) (p4 ++ rest) w)
                p4 rest Hc eq_refl L4
                ltac:(rewrite expired_after; exact E4))).
  rewrite after_after.
  rewrite (bind_ok _ _ _ _ _
             (chanSend_ok p4.*2 (after (((q1 ++ p2) ++ p3) ++ p4) rest w) Hq)).
  rewrite H4. f_equal.
  unfold after, set_infoHashC, set_now, set_conn. cbn.
  now rewrite <- !app_assoc.
Qed.

(** A read on a stream that has nothing more to give fails when the
    connection has a deadline: with end of stream or with a timeout, and
    with nothing changed but the clock. *)
Lemma readFull_empty k w d :
  closed (conn w) = false ->
  incoming (conn w) = [] ->
  deadline (conn w) = Some d ->
  exists e t', readFull (S k) w = Fail e (set_now t' w).
Proof.
  intros Hc Hi Hd.
  assert (Hw : set_now (now w) w = w) by now destruct w.
  unfold readFull. cbn [readLoop]. unfold connRead1, atDeadline.
  rewrite Hc, Hi, Hd.
  destruct (expired (conn w) (now w)); [exists ErrTimeout, (now w); now rewrite Hw|].
  destruct (peerCloses (conn w)) as [tc|].
  - destruct (expired _ _); [now exists ErrTimeout, (Z.max (now w) d)|].
    rewrite bool_decide_eq_true_2 by reflexivity. now eexists EOF, _.
  - now exists ErrTimeout, (Z.max (now w) d).
Qed.

(** The recipient answers as soon as it has seen the info hash: a peer that
    sends the first 48 bytes of a handshake within the minute and never
    sends a peer id (it closes, or stays silent) still gets our handshake
    for its info hash when the [select] takes the info hash; the handler
    then returns on the reader's error, without [communicateWithPeer], and
    closes the connection. *)
Theorem servePeerConn_answers_before_peer_id
    (r : Rain) (w : World) (hd : list (Z * byte)) (rsv ih : list byte) :
  closed (conn w) = false ->
  writeError (conn w) = None ->
  incoming (conn w) = hd ->
  hd.*2 = [x13] ++ bitTorrent10pstr ++ rsv ++ ih ->
  length rsv = 8%nat -> length ih = 20%nat ->
  arrival (now w) hd < now w + Minute ->
  exists w',
    servePeerConn r false w = Done false w'
    /\ sent (conn w') = sent (conn w) ++ handshakeBytes (replicate 8 x00) ih (peerID r)
    /\ closed (conn w') = true.
Proof.
  intros Hc Hwe Hi Hhd Lr Lih Ht.
  unfold servePeerConn, SetDeadline. rewrite Hc.
  set (w1 := set_infoHashC [] _).
  assert (He : expired (conn w1) (arrival (now w1) hd) = false).
  { unfold expired. cbn. apply bool_decide_eq_false_2. lia. }
  assert (Hi1 : incoming (conn w1) = hd ++ []) by (rewrite app_nil_r; exact Hi).
  rewrite (readHandShake_head w1 hd [] rsv ih Hc Hi1 Hhd Lr Lih He eq_refl).
  set (w2 := set_infoHashC _ _).
  destruct (readFull_empty 19 w2 (now w + Minute) Hc eq_refl eq_refl)
    as (e & t' & Hr).
  rewrite Hr. cbn [worldOf infoHashC set_now set_infoHashC w2 andb].
  rewrite sendHandShake_bytes, connWrite_ok; [|exact Hc|exact He|exact Hwe].
  eexists. split; [reflexivity|]. now split.
Qed.

Lemma servePeerConn_answers_before_peer_id_witness :
  exists w',
    servePeerConn rainX false
      (startWorld
         (freshConn (arrivingAt 5 ([x13] ++ bitTorrent10pstr ++ noFlags ++ hashB))
            (Some 7)) 0)
    = Done false w'
    /\ sent (conn w') = handshakeBytes (replicate 8 x00) hashB peerX
    /\ closed (conn w') = true.
Proof.
  destruct (servePeerConn_answers_before_peer_id rainX
              (startWorld
                 (freshConn (arrivingAt 5 ([x13] ++ bitTorrent10pstr ++ noFlags ++ hashB))
                    (Some 7)) 0)
              (arrivingAt 5 ([x13] ++ bitTorrent10pstr ++ noFlags ++ hashB))
              noFlags hashB)
    as (w' & H & Hs & Hcl); try reflexivity.
  exists w'. repeat split; assumption.
Defined.

End RainExtras.

Module SessionAddExtras.

Import SessionAdd.
Import SessionAddProofs.
Local Open Scope Z_scope.

(** *** [filterOutControlChars] *)

Lemma filterOutControlChars_list (s : string) :
  String.list_ascii_of_string (filterOutControlChars s)
  = List.filter (fun b => negb (isControl b)) (String.list_ascii_of_string s).
Proof.
  induction s as [|b s IH]; [reflexivity|].
  cbn. destruct (isControl b); cbn; now rewrite IH.
Qed.

(** The result of [filterOutControlChars] has no byte below 0x20 and no
    0x7f: it is made of the other bytes of the argument, in their order. It
    is not longer than the argument, and filtering it again changes
    nothing. *)
Theorem filterOutControlChars_clean (s : string) :
  Forall (fun b => isControl b = false)
    (String.list_ascii_of_string (filterOutControlChars s))
  /\ String.list_ascii_of_string (filterOutControlChars s)
     = List.filter (fun b => negb (isControl b)) (String.list_ascii_of_string s)
  /\ (String.length (filterOutControlChars s) <= String.length s)%nat
  /\ filterOutControlChars (filterOutControlChars s) = filterOutControlChars s.
Proof.
  split; [|split; [apply filterOutControlChars_list|]].
  - induction s as [|b s IH]; [constructor|].
    cbn. destruct (isControl b) eqn:Hb; [exact IH|]. cbn. now constructor.
  - induction s as [|b s (IH2 & IH3)]; [now split|].
    cbn. destruct (isControl b) eqn:Hb.
    + split; [lia|exact IH3].
    + cbn. rewrite Hb, IH3. split; [lia|reflexivity].
Qed.

(** A string with no control byte goes through unchanged. *)
Theorem filterOutControlChars_keeps (s : string) :
  Forall (fun b => isControl b = false) (String.list_ascii_of_string s) ->
  filterOutControlChars s = s.
Proof.
  induction s as [|b s IH]; [reflexivity|].
  cbn. intros H. inversion H as [|? ? Hb Hs]; subst.
  rewrite Hb. now rewrite IH.
Qed.

Lemma filterOutControlChars_keeps_witness :
  filterOutControlChars "magnet:?xt=urn:btih:abc" = "magnet:?xt=urn:btih:abc".
Proof.
  apply filterOutControlChars_keeps. vm_compute. repeat constructor.
Defined.

(** *** [insertTorrent] *)

(** [insertTorrent] puts the handle of the torrent in both registries: under
    the torrent's id, where it replaces what was there, and at the end of
    the list kept for its info hash, so that torrents with the same info
    hash are all kept, in the order of their insertion. Every other key,
    the free ports, the resume store and the events are left alone. *)
Theorem insertTorrent_registers (t : torrent) (w : World) :
  let t2 := (insertTorrent t w).1 in
  let w' := (insertTorrent t w).2 in
  let ih := String.string_of_list_byte (infoHash t) in
  torrent_ t2 = t
  /\ torrents (session w') !! id t = Some t2
  /\ (forall k, k <> id t -> torrents (session w') !! k = torrents (session w) !! k)
  /\ torrentsByInfoHash (session w') !! ih
     = Some (default [] (torrentsByInfoHash (session w) !! ih) ++ [t2])
  /\ (forall k, k <> ih ->
        torrentsByInfoHash (session w') !! k = torrentsByInfoHash (session w) !! k)
  /\ availablePorts (session w') = availablePorts (session w)
  /\ resumer (session w') = resumer (session w)
  /\ config (session w') = config (session w)
  /\ events w' = events w.
Proof.
  cbn. repeat split.
  - apply lookup_insert_eq.
  - intros k Hk. now apply lookup_insert_ne.
  - apply lookup_insert_eq.
  - intros k Hk. now apply lookup_insert_ne.
Qed.

(** Two torrents with the same info hash inserted one after the other are
    both found under that info hash, the first before the second. *)
Theorem insertTorrent_same_infoHash (t1 t2 : torrent) (w : World) :
  infoHash t1 = infoHash t2 ->
  let w1 := (insertTorrent t1 w).2 in
  let w2 := (insertTorrent t2 w1).2 in
  let ih := String.string_of_list_byte (infoHash t1) in
  torrentsByInfoHash (session w2) !! ih
  = Some (default [] (torrentsByInfoHash (session w) !! ih)
          ++ [ {| torrent_ := t1 |}; {| torrent_ := t2 |} ]).
Proof.
  intros Hih. cbn. rewrite <- Hih.
  rewrite !lookup_insert_eq. cbn. now rewrite <- app_assoc.
Qed.

Lemma insertTorrent_same_infoHash_witness :
  let t := {| id := "a"; addedAt := 0; infoHash := [x01]; storage := {| filestorage.Dest := "/d/a" |};
              name := "n"; port := 50000; trackers := []; fixedPeers := [];
              info := None; webseedClient := false; webseedSources := [] |} in
  torrentsByInfoHash
    (session (insertTorrent t (insertTorrent t world0).2).2)
    !! String.string_of_list_byte [x01]
  = Some [ {| torrent_ := t |}; {| torrent_ := t |} ].
Proof.
  intros t.
  exact (insertTorrent_same_infoHash t t world0 eq_refl).
Defined.

(** *** The add paths when they succeed *)

Lemma add_ok_ports E w tid p sto w' :
  add E w = (inr (tid, p, sto), w') ->
  p ∈ availablePorts (session w)
  /\ availablePorts (session w') = availablePorts (session w) ∖ {[p]}.
Proof.
  unfold add. destruct (getPort E w) as [[e0|p0] w1] eqn:Hg; [discriminate|].
  apply getPort_inv in Hg as (Hin & Hs & _).
  destruct (uuid_NewV1 E) as [e1|u1]; [discriminate|].
  destruct (filestorage_New E _) as [e2|]; [discriminate|].
  intros [= _ <- _ <-]. cbn. rewrite Hs. now split.
Qed.

(** A successful [addTorrentStopped] takes exactly one free port, which is
    the port of the torrent and of the resume record; it starts the check of
    the torrent and neither closes, releases nor starts anything. The
    record stored under the torrent's id carries the info hash, name, info
    bytes, tracker tiers and URL list of the parsed metainfo, read from at
    most [MaxTorrentSize] bytes, and the time of the add. *)
Theorem addTorrentStopped_success
    (E : Env) (r : list byte) (w : World) (t2 : Torrent) (w' : World) :
  addTorrentStopped E r w = (Some t2, None, w') ->
  let t := torrent_ t2 in
  port t ∈ availablePorts (session w)
  /\ availablePorts (session w') = availablePorts (session w) ∖ {[port t]}
  /\ events w' = events w ++ [GetPort (port t); GoCheckTorrent (id t)]
  /\ exists mi,
       metainfo_New E (take (Z.to_nat (MaxTorrentSize (config (session w)))) r) = inr mi
       /\ resumer (session w') !! id t
          = Some {| boltdbresumer.InfoHash := metainfo.Hash (metainfo.Info_ mi);
                    boltdbresumer.Dest := filestorage.Dest (storage t);
                    boltdbresumer.Port := port t;
                    boltdbresumer.Name := metainfo.Name (metainfo.Info_ mi);
                    boltdbresumer.Trackers := metainfo.AnnounceList mi;
                    boltdbresumer.URLList := metainfo.URLList mi;
                    boltdbresumer.FixedPeers := [];
                    boltdbresumer.Info := metainfo.Bytes (metainfo.Info_ mi);
                    boltdbresumer.AddedAt := time_Now E |}
       /\ infoHash t = metainfo.Hash (metainfo.Info_ mi)
       /\ info t = Some (metainfo.Info_ mi)
       /\ webseedSources t = metainfo.URLList mi
       /\ addedAt t = time_Now E.
Proof.
  unfold addTorrentStopped, newTorrent2, resumerWrite, insertTorrent.
  destruct (metainfo_New E _) as [e0|mi] eqn:Hmi; [discriminate|].
  destruct (add E w) as [[e0|[[tid p] sto]] w1] eqn:Ha; [discriminate|].
  destruct (add_ok_ports E w tid p sto w1 Ha) as [Hin Hports].
  apply add_ok in Ha as (u1 & _ & _ & _ & _ & Hev & _).
  destruct (newTorrent2_error E _) as [e0|]; [discriminate|].
  destruct (resumer_Write_error E _ _) as [e0|]; [discriminate|].
  intros [= <- <-]. cbn.
  split; [exact Hin|]. split; [exact Hports|].
  split; [rewrite Hev; now rewrite <- app_assoc|].
  exists mi. split; [reflexivity|]. split; [apply lookup_insert_eq|]. now repeat split.
Qed.

Lemma addTorrentStopped_success_witness :
  exists t2 w',
    addTorrentStopped env0 [] world0 = (Some t2, None, w')
    /\ port (torrent_ t2) = 50001
    /\ availablePorts (session w') = {[ 50000 ]}
    /\ events w' = [GetPort 50001; GoCheckTorrent "a6e4EJ2tEdGAtADAT9QwyA"].
Proof.
  destruct (addTorrentStopped env0 [] world0) as [[ot oe] w'] eqn:H.
  assert (Hot : exists t2, ot = Some t2 /\ oe = None /\ port (torrent_ t2) = 50001
                           /\ id (torrent_ t2) = "a6e4EJ2tEdGAtADAT9QwyA").
  { vm_compute in H. injection H as <- <- _. eexists. repeat split. }
  destruct Hot as (t2 & -> & -> & Hp & Hid).
  destruct (addTorrentStopped_success env0 [] world0 t2 w' H)
    as (_ & Hports & Hev & _).
  exists t2, w'. rewrite Hp, Hid in *. repeat split; assumption.
Defined.

(** Two torrents added one after the other never share a port. *)
Theorem successive_adds_get_distinct_ports
    (E1 E2 : Env) (r1 r2 : list byte) (w w1 w2 : World) (t1 t2 : Torrent) :
  addTorrentStopped E1 r1 w = (Some t1, None, w1) ->
  addTorrentStopped E2 r2 w1 = (Some t2, None, w2) ->
  port (torrent_ t1) <> port (torrent_ t2)
  /\ availablePorts (session w2)
     = availablePorts (session w) ∖ {[port (torrent_ t1)]} ∖ {[port (torrent_ t2)]}.
Proof.
  intros H1 H2.
  apply addTorrentStopped_success in H1 as (_ & Hp1 & _).
  apply addTorrentStopped_success in H2 as (Hin2 & Hp2 & _).
  rewrite Hp1 in Hin2, Hp2. split; [set_solver|exact Hp2].
Qed.

Lemma successive_adds_get_distinct_ports_witness :
  exists t1 t2 w1 w2,
    addTorrentStopped env0 [] world0 = (Some t1, None, w1)
    /\ addTorrentStopped env0 [] w1 = (Some t2, None, w2)
    /\ port (torrent_ t1) <> port (torrent_ t2).
Proof.
  assert (H : exists t1 w1 t2 w2,
             addTorrentStopped env0 [] world0 = (Some t1, None, w1)
             /\ addTorrentStopped env0 [] w1 = (Some t2, None, w2)).
  { eexists _, _, _, _. split; vm_compute; reflexivity. }
  destruct H as (t1 & w1 & t2 & w2 & H1 & H2).
  exists t1, t2, w1, w2. split; [exact H1|]. split; [exact H2|].
  exact (proj1 (successive_adds_get_distinct_ports env0 env0 [] [] world0 w1 w2 t1 t2
                  H1 H2)).
Defined.

(** *** [AddTorrent] and the option [Stopped] *)

(** With [Stopped] set, [AddTorrent] is [addTorrentStopped]: the torrent is
    not started. *)
Theorem AddTorrent_stopped (E : Env) (r : list byte) (w : World) :
  AddTorrent E r (Some {| Stopped := true |}) w = addTorrentStopped E r w.
Proof.
  unfold AddTorrent.
  destruct (addTorrentStopped E r w) as [[ot oe] w1] eqn:H.
  destruct (addTorrentStopped_shape E r w ot oe w1 H)
    as [[-> [e ->]]|[-> [t ->]]]; reflexivity.
Qed.

(** Without [Stopped] (a nil option included), a torrent that was added is
    started once, after it was registered, and [AddTorrent] returns it with
    the error of [Start]. When [Start] fails the torrent stays registered,
    its port stays taken and nothing is closed or released. *)
Theorem AddTorrent_starts
    (E : Env) (r : list byte) (opt : option AddTorrentOptions)
    (w : World) (t2 : Torrent) (w1 : World) :
  wantsStart opt = true ->
  addTorrentStopped E r w = (Some t2, None, w1) ->
  let t := torrent_ t2 in
  exists w',
    AddTorrent E r opt w = (Some t2, Start_error E t, w')
    /\ events w' = events w ++ [GetPort (port t); GoCheckTorrent (id t); StartTorrent (id t)]
    /\ session w' = session w1
    /\ torrents (session w') !! id t = Some t2
    /\ port t ∉ availablePorts (session w').
Proof.
  intros Hs H t. unfold AddTorrent. rewrite H, Hs. unfold Start.
  eexists. split; [reflexivity|]. cbn.
  pose proof (addTorrentStopped_success E r w t2 w1 H) as (_ & Hports & Hev & _).
  split; [rewrite Hev; now rewrite <- app_assoc|]. split; [reflexivity|].
  split.
  - revert H. unfold addTorrentStopped, newTorrent2, resumerWrite, insertTorrent.
    destruct (metainfo_New E _); [discriminate|].
    destruct (add E w) as [[?|[[? ?] ?]] ?]; [discriminate|].
    destruct (newTorrent2_error E _); [discriminate|].
    destruct (resumer_Write_error E _ _); [discriminate|].
    intros [= <- <-]. cbn. apply lookup_insert_eq.
  - rewrite Hports. set_solver.
Qed.

Lemma AddTorrent_starts_witness :
  exists t2 w',
    AddTorrent env0 [] None world0 = (Some t2, None, w')
    /\ events w' = [GetPort 50001; GoCheckTorrent "a6e4EJ2tEdGAtADAT9QwyA";
                    StartTorrent "a6e4EJ2tEdGAtADAT9QwyA"].
Proof.
  destruct (addTorrentStopped env0 [] world0) as [[ot oe] w1] eqn:H.
  assert (Hot : exists t2, ot = Some t2 /\ oe = None /\ port (torrent_ t2) = 50001
                           /\ id (torrent_ t2) = "a6e4EJ2tEdGAtADAT9QwyA").
  { vm_compute in H. injection H as <- <- _. eexists. repeat split. }
  destruct Hot as (t2 & -> & -> & Hp & Hid).
  destruct (AddTorrent_starts env0 [] None world0 t2 w1 eq_refl H)
    as (w' & Ha & Hev & _).
  exists t2, w'. rewrite Hp, Hid in Hev. split; assumption.
Defined.

(** *** [addMagnet] *)

(** What [addMagnet] has done whenever it hands a torrent back, with or
    without an error. *)
Lemma addMagnet_some E link opt w t2 err w' :
  addMagnet E link opt w = (Some t2, err, w') ->
  let t := torrent_ t2 in
  exists ma u1,
    magnet_New E link = inr ma
    /\ uuid_NewV1 E = inr u1
    /\ id t = base64.EncodeToString u1
    /\ port t ∈ availablePorts (session w)
    /\ infoHash t = magnet.InfoHash ma
    /\ fixedPeers t = magnet.Peers ma
    /\ info t = None
    /\ torrents (session w') = <[id t := t2]> (torrents (session w))
    /\ resumer (session w')
       = <[id t := {| boltdbresumer.InfoHash := magnet.InfoHash ma;
                      boltdbresumer.Dest :=
                        filepath_Join E (DataDir (config (session w))) (id t);
                      boltdbresumer.Port := port t;
                      boltdbresumer.Name := magnet.Name ma;
                      boltdbresumer.Trackers := magnet.Trackers ma;
                      boltdbresumer.URLList := [];
                      boltdbresumer.FixedPeers := magnet.Peers ma;
                      boltdbresumer.Info := [];
                      boltdbresumer.AddedAt := time_Now E |}]> (resumer (session w))
    /\ err = (if wantsStart opt then Start_error E t else None)
    /\ availablePorts (session w')
       = (if err is Some _ then availablePorts (session w)
          else availablePorts (session w) ∖ {[port t]})
    /\ events w'
       = events w ++ [GetPort (port t); GoCheckTorrent (id t)]
         ++ (if wantsStart opt then [StartTorrent (id t)] else [])
         ++ (if err is Some _ then [CloseTorrent (id t); ReleasePort (port t)] else []).
Proof.
  unfold addMagnet, newTorrent2, resumerWrite, insertTorrent.
  destruct (magnet_New E link) as [e0|ma] eqn:Hma; [discriminate|].
  destruct (add E w) as [[e0|[[tid p] sto]] w1] eqn:Ha; [discriminate|].
  destruct (add_ok_ports E w tid p sto w1 Ha) as [Hin Hports].
  apply add_ok in Ha as (u1 & Hu & Hid & Hsto & _ & Hev & _ & _ & Hres & Htor & _).
  destruct (newTorrent2_error E _) as [e0|]; [discriminate|].
  destruct (resumer_Write_error E _ _) as [e0|]; [discriminate|].
  unfold Start. cbn [torrent_ id].
  destruct (wantsStart opt); cbn [fst snd].
  - destruct (Start_error E _) as [e|] eqn:Hst; intros [= <- <- <-]; cbn;
      exists ma, u1; rewrite ?Hst, Hres, Htor, Hsto, Hev, Hports; cbn;
      repeat split; try assumption; try (now rewrite <- !app_assoc).
    now rewrite <- (union_difference_singleton_L p _ Hin).
  - intros [= <- <- <-]. cbn.
    exists ma, u1. rewrite Hres, Htor, Hsto, Hev, Hports. cbn.
    repeat split; try assumption. now rewrite <- !app_assoc.
Qed.

(** A magnet link added without error gets as its id the unpadded URL-safe
    base64 text of a fresh version-1 UUID, like a metainfo; it takes one
    port; the resume record written under the id has the magnet's info
    hash, name, trackers and peers, and neither info bytes nor URL list;
    the torrent is started unless [Stopped] is set, and nothing is closed
    or released. *)
Theorem addMagnet_success
    (E : Env) (link : string) (opt : option AddTorrentOptions)
    (w : World) (t2 : Torrent) (w' : World) :
  addMagnet E link opt w = (Some t2, None, w') ->
  let t := torrent_ t2 in
  exists ma u1 spec,
    magnet_New E link = inr ma
    /\ uuid_NewV1 E = inr u1
    /\ id t = base64.EncodeToString u1
    /\ infoHash t = magnet.InfoHash ma
    /\ info t = None
    /\ torrents (session w') !! id t = Some t2
    /\ resumer (session w') !! id t = Some spec
    /\ boltdbresumer.InfoHash spec = magnet.InfoHash ma
    /\ boltdbresumer.FixedPeers spec = magnet.Peers ma
    /\ boltdbresumer.Info spec = []
    /\ boltdbresumer.URLList spec = []
    /\ boltdbresumer.Port spec = port t
    /\ availablePorts (session w') = availablePorts (session w) ∖ {[port t]}
    /\ events w'
       = events w ++ [GetPort (port t); GoCheckTorrent (id t)]
         ++ (if wantsStart opt then [StartTorrent (id t)] else []).
Proof.
  intros H t.
  destruct (addMagnet_some E link opt w t2 None w' H)
    as (ma & u1 & Hma & Hu & Hid & _ & Hih & _ & Hinfo & Htor & Hres & _ & Hports & Hev).
  exists ma, u1. eexists.
  split; [exact Hma|]. split; [exact Hu|]. split; [exact Hid|].
  split; [exact Hih|]. split; [exact Hinfo|].
  split; [rewrite Htor; apply lookup_insert_eq|].
  split; [rewrite Hres; apply lookup_insert_eq|].
  cbn. repeat split; try assumption.
  rewrite Hev. now rewrite app_nil_r.
Qed.

Lemma addMagnet_success_witness :
  exists t2 w',
    addMagnet env0 "magnet:?xt=urn:btih:bb" (Some {| Stopped := true |}) world0
    = (Some t2, None, w')
    /\ id (torrent_ t2) = "a6e4EJ2tEdGAtADAT9QwyA"
    /\ info (torrent_ t2) = None.
Proof.
  assert (H : exists t2 w',
             addMagnet env0 "magnet:?xt=urn:btih:bb" (Some {| Stopped := true |}) world0
             = (Some t2, None, w')).
  { eexists _, _. vm_compute. reflexivity. }
  destruct H as (t2 & w' & H).
  destruct (addMagnet_success env0 _ _ world0 t2 w' H)
    as (ma & u1 & spec & _ & Hu & Hid & _ & Hinfo & _).
  injection Hu as <-.
  exists t2, w'. split; [exact H|]. split; [rewrite Hid; reflexivity|exact Hinfo].
Defined.

(** When [Start] fails in [addMagnet], the two deferred closures see the
    error and run: the torrent is closed and its port is released, so the
    free ports are what they were before the add. Yet the torrent has
    already been inserted and its resume record written: it is returned
    with the error, stays in the registry and in the resume store, and its
    port is free for the next add. *)
Theorem addMagnet_start_failure_undoes_half
    (E : Env) (link : string) (opt : option AddTorrentOptions)
    (w : World) (t2 : Torrent) (e : error) (w' : World) :
  addMagnet E link opt w = (Some t2, Some e, w') ->
  let t := torrent_ t2 in
  wantsStart opt = true
  /\ Start_error E t = Some e
  /\ torrents (session w') !! id t = Some t2
  /\ is_Some (resumer (session w') !! id t)
  /\ availablePorts (session w') = availablePorts (session w)
  /\ port t ∈ availablePorts (session w')
  /\ events w'
     = events w ++ [GetPort (port t); GoCheckTorrent (id t); StartTorrent (id t);
                    CloseTorrent (id t); ReleasePort (port t)].
Proof.
  intros H t.
  destruct (addMagnet_some E link opt w t2 (Some e) w' H)
    as (ma & u1 & _ & _ & _ & Hin & _ & _ & _ & Htor & Hres & Herr & Hports & Hev).
  destruct (wantsStart opt); [|discriminate].
  split; [reflexivity|]. split; [now rewrite Herr|].
  split; [rewrite Htor; apply lookup_insert_eq|].
  split; [rewrite Hres, lookup_insert_eq; eauto|].
  split; [exact Hports|]. split; [now rewrite Hports|].
  exact Hev.
Qed.

Lemma addMagnet_start_failure_undoes_half_witness :
  exists t2 w',
    addMagnet envStartFails "magnet:?xt=urn:btih:bb" None world0
    = (Some t2, Some "torrent is closed", w')
    /\ torrents (session w') !! id (torrent_ t2) = Some t2
    /\ availablePorts (session w') = availablePorts (session world0).
Proof.
  assert (H : exists t2 w',
             addMagnet envStartFails "magnet:?xt=urn:btih:bb" None world0
             = (Some t2, Some "torrent is closed", w')).
  { eexists _, _. vm_compute. reflexivity. }
  destruct H as (t2 & w' & H).
  destruct (addMagnet_start_failure_undoes_half envStartFails _ _ world0 t2 _ w' H)
    as (_ & _ & Htor & _ & Hports & _).
  exists t2, w'. repeat split; assumption.
Defined.

(** *** [addURL] and [AddURI] *)

Lemma addTorrentStopped_limit E r w :
  addTorrentStopped E (take (Z.to_nat (MaxTorrentSize (config (session w)))) r) w
  = addTorrentStopped E r w.
Proof.
  unfold addTorrentStopped. rewrite take_take, Nat.min_id. reflexivity.
Qed.

(** [addURL] refuses a response whose declared length exceeds
    [MaxTorrentSize], with the session and the events untouched; any other
    response is added as [AddTorrent] adds its body: the limit that
    [addURL] puts on the body is the limit that [addTorrentStopped] puts
    again, and at most [MaxTorrentSize] bytes of the body reach the
    parser. *)
Theorem addURL_limits
    (E : Env) (N : Net) (u : string) (opt : option AddTorrentOptions)
    (w : World) (resp : Response) :
  http_Get N u = inr resp ->
  let max := MaxTorrentSize (config (session w)) in
  (max < ContentLength resp ->
   addURL E N u opt w
   = (None, Some ("torrent too large: " +:+ pretty (ContentLength resp)), w))
  /\ (ContentLength resp <= max ->
      addURL E N u opt w = AddTorrent E (Body resp) opt w).
Proof.
  intros Hget max. unfold addURL. rewrite Hget. fold max. split; intros Hc.
  - now rewrite (proj2 (Z.ltb_lt _ _) Hc).
  - rewrite (proj2 (Z.ltb_ge _ _) Hc). unfold AddTorrent.
    subst max. now rewrite addTorrentStopped_limit.
Qed.

Lemma addURL_limits_witness :
  addURL env0 (netOf "http" {| ContentLength := 10485761; Body := [] |})
    "http://host/a.torrent" None world0
  = (None, Some "torrent too large: 10485761", world0).
Proof.
  destruct (addURL_limits env0 (netOf "http" {| ContentLength := 10485761; Body := [] |})
              "http://host/a.torrent" None world0 _ eq_refl) as [H _].
  rewrite H; [reflexivity|]. cbn. lia.
Defined.

(** [AddURI] looks at its argument only after the control characters are
    taken out: a URI and the same URI with control characters anywhere in it
    are the same request. *)
Theorem AddURI_ignores_control_chars
    (E : Env) (N : Net) (uri : string) (opt : option AddTorrentOptions) (w : World) :
  AddURI E N uri opt w = AddURI E N (filterOutControlChars uri) opt w.
Proof.
  unfold AddURI.
  now rewrite (proj2 (proj2 (proj2 (filterOutControlChars_clean uri)))).
Qed.

Lemma addURL_fail E N u opt w e w' :
  addURL E N u opt w = (None, Some e, w') ->
  session w' = session w /\ undone (events w) (events w').
Proof.
  unfold addURL. destruct (http_Get N u) as [e0|resp].
  { intros [= _ <-]. split; [reflexivity|now left]. }
  destruct (_ <? _).
  { intros [= _ <-]. split; [reflexivity|now left]. }
  unfold AddTorrent.
  destruct (addTorrentStopped E _ w) as [[ot oe] w1] eqn:H.
  destruct (addTorrentStopped_shape E _ w ot oe w1 H)
    as [[-> [e0 ->]]|[-> [t ->]]].
  - intros [= <- <-]. exact (addTorrentStopped_fail E _ w e0 w1 H).
  - destruct (wantsStart opt); [|discriminate]. unfold Start. discriminate.
Qed.

(** [AddURI] when it hands no torrent back, whatever the reason (the URI
    does not parse, its scheme is not http, https or magnet, the download
    fails or is too large, or the add itself fails): the session is what it
    was, and a port that was acquired has been released. For a scheme that
    is not supported the error names the scheme and nothing was called. *)
Theorem AddURI_failure_leaves_session
    (E : Env) (N : Net) (uri : string) (opt : option AddTorrentOptions)
    (w : World) (e : error) (w' : World) :
  AddURI E N uri opt w = (None, Some e, w') ->
  session w' = session w
  /\ undone (events w) (events w')
  /\ (forall u,
        url_Parse N (filterOutControlChars uri) = inr u ->
        Scheme u <> "http" -> Scheme u <> "https" -> Scheme u <> "magnet" ->
        e = "unsupported uri scheme: " +:+ Scheme u /\ w' = w).
Proof.
  unfold AddURI. intros H.
  destruct (url_Parse N _) as [e0|u] eqn:Hu.
  { injection H as _ <-. split; [reflexivity|]. split; [now left|]. discriminate. }
  destruct (String.eqb_spec (Scheme u) "http") as [Hh|Hh].
  { cbn [orb] in H. destruct (addURL_fail E N _ opt w e w' H) as [H1 H2].
    split; [exact H1|]. split; [exact H2|]. intros u' [= <-]. congruence. }
  destruct (String.eqb_spec (Scheme u) "https") as [Hs|Hs].
  { cbn [orb] in H. destruct (addURL_fail E N _ opt w e w' H) as [H1 H2].
    split; [exact H1|]. split; [exact H2|]. intros u' [= <-]. congruence. }
  cbn [orb] in H.
  destruct (String.eqb_spec (Scheme u) "magnet") as [Hm|Hm].
  { destruct (addMagnet_fail E _ opt w e w' H) as [H1 H2].
    split; [exact H1|]. split; [exact H2|]. intros u' [= <-]. congruence. }
  injection H as <- <-. split; [reflexivity|]. split; [now left|].
  intros u' [= <-] _ _ _. now split.
Qed.

Lemma AddURI_failure_leaves_session_witness :
  AddURI env0 (netOf "ftp" {| ContentLength := 0; Body := [] |})
    "ftp://host/a.torrent" None world0
  = (None, Some "unsupported uri scheme: ftp", world0)
  /\ session world0 = session world0.
Proof.
  assert (H : AddURI env0 (netOf "ftp" {| ContentLength := 0; Body := [] |})
                "ftp://host/a.torrent" None world0
              = (None, Some "unsupported uri scheme: ftp", world0))
    by (vm_compute; reflexivity).
  split; [exact H|].
  exact (proj1 (AddURI_failure_leaves_session _ _ _ _ _ _ _ H)).
Defined.

End SessionAddExtras.
